(** * ModelBD tokenizer: a shallow embedding of [src/tokenizer.py]

    The development follows the Python class [CustomTokenizer]:
    - Python [str] values are sequences of Unicode code points ([list N]);
    - Python [dict]s are insertion-ordered association lists with unique keys;
    - the two [re] patterns are written as regular-expression syntax trees and
      run by a backtracking matcher that returns its successes in the order in
      which the [re] engine would try them;
    - operations that contain a partial step (list indexing, the explicit
      [raise]) live in a small exception monad.

    File loading ([open], [json.load], lines 7-17 of the source) is outside the
    model: [__init__] starts from the sequence of (token, id) pairs read from
    the vocabulary file. *)

From Stdlib Require Import Ascii String.
From Stdlib Require Import List NArith ZArith Bool Arith Lia.
Import ListNotations.

Set Implicit Arguments.

(** ** Characters and strings *)

Definition char := N.
Definition str := list char.

Definition ch (a : ascii) : char := N_of_ascii a.
Definition lit (s : string) : str := map N_of_ascii (list_ascii_of_string s).

Arguments ch a%_char.
Arguments lit s%_string.

(** The line feed, which has no printable notation. *)
Definition nl : char := 10%N.

(** ** Boolean equality *)

(** Python's [==] on the values the tokenizer compares: code points,
    integers and sequences of them. *)
Class Eqb (A : Type) := eqb : A -> A -> bool.

#[export] Instance Eqb_N : Eqb N := N.eqb.
#[export] Instance Eqb_Z : Eqb Z := Z.eqb.

Fixpoint list_eqb {A} `{Eqb A} (l1 l2 : list A) : bool :=
  match l1, l2 with
  | [], [] => true
  | x :: l1', y :: l2' => eqb x y && list_eqb l1' l2'
  | _, _ => false
  end.

#[export] Instance Eqb_list {A} `{Eqb A} : Eqb (list A) := list_eqb.

(** ** Python [str] methods used by the tokenizer *)

(** [str.isspace] on one code point (CPython's [_PyUnicode_IsWhitespace]). *)
Definition isspace (c : char) : bool :=
  ((9 <=? c) && (c <=? 13) || (28 <=? c) && (c <=? 32)
   || (c =? 133) || (c =? 160) || (c =? 5760)
   || (8192 <=? c) && (c <=? 8202)
   || (c =? 8232) || (c =? 8233) || (c =? 8239) || (c =? 8287)
   || (c =? 12288))%N.

Fixpoint lstrip (s : str) : str :=
  match s with
  | c :: s' => if isspace c then lstrip s' else s
  | [] => []
  end.

Definition rstrip (s : str) : str := rev (lstrip (rev s)).

(** [text.strip()] *)
Definition strip (s : str) : str := rstrip (lstrip s).

Definition flush (cur : str) : list str :=
  match cur with [] => [] | _ => [cur] end.

(** [text.split()]: maximal runs of non-whitespace, [cur] being the run that
    is being read. *)
Fixpoint split_from (cur : str) (s : str) : list str :=
  match s with
  | [] => flush cur
  | c :: s' =>
      if isspace c then flush cur ++ split_from [] s'
      else split_from (cur ++ [c]) s'
  end.

Definition split (s : str) : list str := split_from [] s.

(** [token.startswith('[')] *)
Definition startswith (s : str) (c : char) : bool :=
  match s with
  | x :: _ => eqb x c
  | [] => false
  end.

(** [text[i:j]] for [0 <= i <= j]. *)
Definition slice (s : str) (i j : nat) : str := firstn (j - i) (skipn i s).

(** ** Python [dict]: insertion-ordered, one entry per key *)

Section Dict.

Context {K V : Type} `{Eqb K}.

Definition dict : Type := list (K * V).

(** [d.get(k, None)] *)
Fixpoint dict_get (d : dict) (k : K) : option V :=
  match d with
  | [] => None
  | (k', v) :: d' => if eqb k' k then Some v else dict_get d' k
  end.

(** [d.get(k, default)] *)
Definition dict_get_default (d : dict) (k : K) (default : V) : V :=
  match dict_get d k with
  | Some v => v
  | None => default
  end.

(** [d[k] = v]: an existing key keeps its place and takes the new value, a
    new key goes to the end. *)
Fixpoint dict_set (d : dict) (k : K) (v : V) : dict :=
  match d with
  | [] => [(k, v)]
  | (k', v') :: d' =>
      if eqb k' k then (k', v) :: d' else (k', v') :: dict_set d' k v
  end.

(** The dict built from a sequence of pairs, one assignment after the other
    (what [json.load] does for an object and what a dict comprehension does
    for its iterable). *)
Definition dict_of_items (items : list (K * V)) : dict :=
  fold_left (fun d kv => dict_set d (fst kv) (snd kv)) items [].

End Dict.

Arguments dict K V : clear implicits.

(** [x in s] for a set kept as the list of its elements. *)
Definition mem {A} `{Eqb A} (x : A) (s : list A) : bool := existsb (eqb x) s.

(** ** Exceptions *)

Inductive exn : Type :=
| ValueError (msg : str)
| IndexError.

Inductive result (A : Type) : Type :=
| Ok (a : A)
| Raise (e : exn).

Arguments Ok {A} a.
Arguments Raise {A} e.

Definition bind {A B} (m : result A) (k : A -> result B) : result B :=
  match m with
  | Ok a => k a
  | Raise e => Raise e
  end.

Notation "x <- m ;; k" := (bind m (fun x => k))
  (at level 61, m at next level, right associativity).

(** A [for] loop whose body may raise. *)
Fixpoint for_each {A St} (body : St -> A -> result St) (l : list A)
    (s : St) : result St :=
  match l with
  | [] => Ok s
  | x :: l' => s' <- body s x ;; for_each body l' s'
  end.

(** [l[i]] for [i >= 0]. *)
Definition getitem {A} (l : list A) (i : nat) : result A :=
  match nth_error l i with
  | Some x => Ok x
  | None => Raise IndexError
  end.

(** [enumerate(l)] *)
Definition enumerate {A} (l : list A) : list (nat * A) :=
  combine (seq 0 (length l)) l.

(** [range(start, stop, -1)] *)
Definition range_down (start stop : nat) : list nat :=
  rev (seq (S stop) (start - stop)).

(** A [while] loop that is given [fuel] iterations; [None] when they do not
    suffice. *)
Fixpoint while {St} (cond : St -> bool) (body : St -> St) (fuel : nat)
    (s : St) : option St :=
  match fuel with
  | 0 => if cond s then None else Some s
  | S fuel' => if cond s then while cond body fuel' (body s) else Some s
  end.

(** ** Regular expressions

    Only the constructs that occur in the two patterns of the tokenizer. *)

Inductive item : Type :=
| One (c : char)          (* a single character *)
| Range (lo hi : char)    (* lo-hi *)
| Digit.                  (* \d *)

Inductive regex : Type :=
| Lit (s : str)                            (* a literal string *)
| Class (negated : bool) (items : list item)  (* [...] and [^...] *)
| Cat (r1 r2 : regex)                      (* r1 r2 *)
| Alt (r1 r2 : regex)                      (* r1|r2 *)
| Rep (lo : nat) (hi : option nat) (r : regex)  (* greedy r{lo,hi}, r*, r+ *)
| Group (r : regex)                        (* (r) *)
| Bol                                      (* ^ *)
| Eol.                                     (* $ *)

(** A position in the subject string: the number of characters before it and
    the characters after it. *)
Record cursor : Type := Cursor { pos : nat; rest : str }.

Definition start (s : str) : cursor := Cursor 0 s.

Fixpoint strip_prefix (p s : str) : option str :=
  match p, s with
  | [], _ => Some s
  | x :: p', y :: s' => if eqb x y then strip_prefix p' s' else None
  | _ :: _, [] => None
  end.

(** Greedy repetition: at least [lo] and at most [hi] iterations of [step];
    one more iteration is tried before stopping. *)
Fixpoint rep (step : cursor -> list cursor) (lo hi : nat) (c : cursor)
  : list cursor :=
  match hi with
  | 0 => match lo with 0 => [c] | S _ => [] end
  | S hi' =>
      flat_map (rep step (Nat.pred lo) hi') (step c)
      ++ match lo with 0 => [c] | S _ => [] end
  end.

(** The interpreter's table of Unicode decimal digits (category Nd) beyond
    ASCII, against which [\d] matches. The table belongs to the Python
    runtime, not to the repository, and is left open. *)
Class UnicodeTable := unicode_Nd : char -> bool.

Section Tokenizer.

Context {U : UnicodeTable}.

Definition is_digit (c : char) : bool :=
  ((48 <=? c) && (c <=? 57) || (128 <=? c) && unicode_Nd c)%N.

Definition in_item (x : char) (i : item) : bool :=
  match i with
  | One c => eqb x c
  | Range lo hi => ((lo <=? x) && (x <=? hi))%N
  | Digit => is_digit x
  end.

Definition in_class (negated : bool) (items : list item) (x : char) : bool :=
  xorb negated (existsb (in_item x) items).

(** The backtracking matcher: all the ways in which [r] matches at [c], as
    the cursors after the match, in the order in which they are tried.
    An unbounded repetition is given as many iterations as there are
    characters left; in both patterns every iteration consumes a character. *)
Fixpoint run (r : regex) (c : cursor) : list cursor :=
  match r with
  | Lit s =>
      match strip_prefix s (rest c) with
      | Some s' => [Cursor (pos c + length s) s']
      | None => []
      end
  | Class negated items =>
      match rest c with
      | x :: s' => if in_class negated items x then [Cursor (S (pos c)) s'] else []
      | [] => []
      end
  | Cat r1 r2 => flat_map (run r2) (run r1 c)
  | Alt r1 r2 => run r1 c ++ run r2 c
  | Rep lo hi r =>
      match hi with
      | Some h => rep (run r) lo h c
      | None => rep (run r) lo (length (rest c)) c
      end
  | Group r => run r c
  | Bol => match pos c with 0 => [c] | S _ => [] end
  | Eol =>
      match rest c with
      | [] => [c]
      | [x] => if eqb x nl then [c] else []
      | _ => []
      end
  end.

(** [pattern.match(text)]: the first success at position 0, if any. *)
Definition re_match (r : regex) (text : str) : option cursor :=
  hd_error (run r (start text)).

(** [pattern.findall(text)] for a pattern whose only group spans the whole
    pattern: the matched substrings, scanning from left to right. After an
    empty match, and where nothing matches, the scan moves on by one
    character. *)
Fixpoint findall_fuel (fuel : nat) (r : regex) (c : cursor) : list str :=
  match fuel with
  | 0 => []
  | S fuel' =>
      let skip :=
        match rest c with
        | [] => []
        | _ :: s' => findall_fuel fuel' r (Cursor (S (pos c)) s')
        end in
      match run r c with
      | c' :: _ =>
          let token := firstn (pos c' - pos c) (rest c) in
          if pos c' =? pos c then token :: skip
          else token :: findall_fuel fuel' r c'
      | [] => skip
      end
  end.

Definition findall (r : regex) (text : str) : list str :=
  findall_fuel (S (length text)) r (start text).

(** ** The patterns of [__init__] *)

Definition star (r : regex) : regex := Rep 0 None r.
Definition plus (r : regex) : regex := Rep 1 None r.

Fixpoint alts (r : regex) (rs : list regex) : regex :=
  match rs with
  | [] => r
  | r' :: rs' => Alt r (alts r' rs')
  end.

(** [r'^\d+(\.\d+)*$'] *)
Definition reaction_class_pattern : regex :=
  Cat Bol
 (Cat (plus (Class false [Digit]))
 (Cat (star (Group (Cat (Lit (lit ".")) (plus (Class false [Digit])))))
      Eol)).

(** [[B-IK-Zb-ik-z0-9=#$%@+\->\(\)/\\\.]] *)
Definition smiles_chars : list item :=
  [ Range (ch "B") (ch "I"); Range (ch "K") (ch "Z");
    Range (ch "b") (ch "i"); Range (ch "k") (ch "z");
    Range (ch "0") (ch "9");
    One (ch "="); One (ch "#"); One (ch "$"); One (ch "%"); One (ch "@");
    One (ch "+"); One (ch "-"); One (ch ">"); One (ch "("); One (ch ")");
    One (ch "/"); One (ch "\"); One (ch ".") ].

(** [\[[^\[\]]{1,10}\]] *)
Definition bracket_atom : regex :=
  Cat (Lit (lit "["))
 (Cat (Rep 1 (Some 10) (Class true [One (ch "["); One (ch "]")]))
      (Lit (lit "]"))).

Definition elements : list string :=
  [ "Br"; "Cl"; "Si"; "Se"; "Na"; "Ca"; "Li"; "Mg"; "Zn"; "Cu"; "Fe"; "Mn";
    "Hg"; "Ag"; "Au" ]%string.

(** [(>>|\[[^\[\]]{1,10}\]|Br|Cl|...|Au|[B-IK-Z...])] *)
Definition SMILES_REGEX : regex :=
  Group (alts (Lit (lit ">>"))
    (bracket_atom
     :: map (fun e => Lit (lit e)) elements
     ++ [Class false smiles_chars])).

(** [is_reaction_class] *)
Definition is_reaction_class (text : str) : bool :=
  match re_match reaction_class_pattern text with
  | Some _ => true
  | None => false
  end.

(** [tokenize_smiles] *)
Definition tokenize_smiles (smiles_string : str) : list str :=
  findall SMILES_REGEX smiles_string.

(** ** The class [CustomTokenizer] *)

Definition pad_token : str := lit "[PAD]".
Definition mask_token : str := lit "[MASK]".
Definition unk_token : str := lit "[UNK]".
Definition eos_token : str := lit "[EOS]".
Definition noagent_token : str := lit "[NOAGENT]".

Record CustomTokenizer : Type := {
  token_to_id : dict str Z;
  id_to_token : dict Z str;
  vocab : list str;
  pad_token_id : Z;
  mask_token_id : Z;
  unk_token_id : Z;
  eos_token_id : Z;
  noagent_token_id : Z
}.

Definition _require_token (token_to_id : dict str Z) (token : str) : result Z :=
  match dict_get token_to_id token with
  | None => Raise (ValueError (token ++ lit " token is missing in vocabulary!"))
  | Some tid => Ok tid
  end.

(** [__init__], from the (token, id) pairs of the vocabulary file on. *)
Definition __init__ (vocab_data : list (str * Z)) : result CustomTokenizer :=
  let token_to_id := dict_of_items vocab_data in
  let id_to_token :=
    dict_of_items (map (fun kv => (snd kv, fst kv)) token_to_id) in
  let vocab := map fst token_to_id in
  pad_token_id <- _require_token token_to_id pad_token ;;
  mask_token_id <- _require_token token_to_id mask_token ;;
  unk_token_id <- _require_token token_to_id unk_token ;;
  eos_token_id <- _require_token token_to_id eos_token ;;
  noagent_token_id <- _require_token token_to_id noagent_token ;;
  Ok {| token_to_id := token_to_id;
        id_to_token := id_to_token;
        vocab := vocab;
        pad_token_id := pad_token_id;
        mask_token_id := mask_token_id;
        unk_token_id := unk_token_id;
        eos_token_id := eos_token_id;
        noagent_token_id := noagent_token_id |}.

Definition vocab_size (self : CustomTokenizer) : nat :=
  length (token_to_id self).

Definition get_special_token_id (self : CustomTokenizer) (token : str) : Z :=
  dict_get_default (token_to_id self) token (unk_token_id self).

(** *** [_greedy_tokenize] *)

(** The inner [for j in range(len(text), i, -1)] loop with its [break]. *)
Fixpoint greedy_scan (self : CustomTokenizer) (text : str) (i : nat)
    (js : list nat) (match_ : option str) : option str :=
  match js with
  | [] => match_
  | j :: js' =>
      let sub := slice text i j in
      if mem sub (vocab self) then Some sub
      else greedy_scan self text i js' match_
  end.

(** One iteration of the [while] loop on the state [(i, tokens)]; [if match:]
    holds for a string that is not empty. *)
Definition greedy_body (self : CustomTokenizer) (text : str)
    (st : nat * list str) : nat * list str :=
  let '(i, tokens) := st in
  let match_ := greedy_scan self text i (range_down (length text) i) None in
  match match_ with
  | Some (x :: m) => (i + length (x :: m), tokens ++ [x :: m])
  | _ => (S i, tokens ++ [unk_token])
  end.

Definition greedy_cond (text : str) (st : nat * list str) : bool :=
  fst st <? length text.

Definition greedy_loop (fuel : nat) (self : CustomTokenizer) (text : str)
  : option (list str) :=
  option_map snd (while (greedy_cond text) (greedy_body self text) fuel (0, [])).

Definition _greedy_tokenize (self : CustomTokenizer) (text : str)
  : option (list str) :=
  greedy_loop (length text) self text.

(** *** [encode] *)

Definition encode (self : CustomTokenizer) (text : str) : list Z :=
  let pieces := split (strip text) in
  let tokens :=
    fold_left
      (fun tokens piece =>
         if is_reaction_class piece then tokens ++ [piece]
         else if mem piece (vocab self) then tokens ++ [piece]
         else tokens ++ tokenize_smiles piece)
      pieces [] in
  map (fun token => dict_get_default (token_to_id self) token (unk_token_id self))
      tokens.

(** *** [decode] *)

(** The condition of the [elif], with the short-circuit evaluation of [or]. *)
Definition spaced (tokens : list str) (i : nat) (token : str) : result bool :=
  if is_reaction_class token then Ok true else
  prev <- getitem tokens (i - 1) ;;
  if is_reaction_class prev then Ok true else
  if startswith token (ch "[") then Ok true else
  prev' <- getitem tokens (i - 1) ;;
  Ok (startswith prev' (ch "[")).

(** The body of the joining loop [for i, token in enumerate(tokens)]. *)
Definition join_body (tokens : list str) (parts : list str)
    (it : nat * str) : result (list str) :=
  let '(i, token) := it in
  if i =? 0 then Ok (parts ++ [token])
  else
    b <- spaced tokens i token ;;
    if b then Ok (parts ++ [ch " " :: token])
    else Ok (parts ++ [token]).

Definition decode (self : CustomTokenizer) (token_ids : list Z) : result str :=
  match token_ids with
  | [] => Ok []
  | _ =>
      let tokens :=
        fold_left
          (fun tokens i =>
             if eqb i (pad_token_id self) then tokens
             else tokens ++ [dict_get_default (id_to_token self) i unk_token])
          token_ids [] in
      match tokens with
      | [] => Ok []
      | _ =>
          parts <- for_each (join_body tokens) (enumerate tokens) [] ;;
          Ok (concat parts)
      end
  end.

End Tokenizer.


(** ** Reference definitions

    The relational meaning of a pattern, and the operations as the
    specification words them; the theorems below compare them with the
    embedding of the code. *)

(** [w] is what lies between the cursors [c] and [c']. *)
Definition adv (c : cursor) (w : str) (c' : cursor) : Prop :=
  rest c = w ++ rest c' /\ pos c' = pos c + length w.

Fixpoint iter (R : cursor -> cursor -> Prop) (k : nat) (c c' : cursor) : Prop :=
  match k with
  | 0 => c = c'
  | S k' => exists m, R c m /\ iter R k' m c'
  end.

Section Reference.

Context {U : UnicodeTable}.

(** [den r c c']: the pattern [r] can match from [c] to [c']. *)
Fixpoint den (r : regex) (c c' : cursor) : Prop :=
  match r with
  | Lit s => adv c s c'
  | Class negated items =>
      exists x, in_class negated items x = true /\ adv c [x] c'
  | Cat r1 r2 => exists m, den r1 c m /\ den r2 m c'
  | Alt r1 r2 => den r1 c c' \/ den r2 c c'
  | Rep lo hi r =>
      exists k, lo <= k /\
        k <= match hi with Some h => h | None => length (rest c) end /\
        iter (den r) k c c'
  | Group r => den r c c'
  | Bol => pos c = 0 /\ c' = c
  | Eol => c' = c /\ (rest c = [] \/ rest c = [nl])
  end.

(** *** Reaction classes: groups of digits separated by single dots *)

Definition dot : char := ch ".".

(** The groups [gs], each after a dot. *)
Definition dotted (gs : list str) : str := concat (map (cons dot) gs).

(** [s.split(sep)] for a one-character separator. *)
Fixpoint split_on (sep : char) (s : str) : list str :=
  match s with
  | [] => [[]]
  | c :: s' =>
      if eqb c sep then [] :: split_on sep s'
      else match split_on sep s' with
           | g :: gs => (c :: g) :: gs
           | [] => [[c]]
           end
  end.

Definition digit_group (g : str) : bool :=
  match g with
  | [] => false
  | _ => forallb is_digit g
  end.

Definition dotted_digits (s : str) : bool :=
  forallb digit_group (split_on (ch ".") s).

(** [s] without its last character when that is a line feed. *)
Definition chomp (s : str) : str :=
  match rev s with
  | x :: r => if eqb x nl then rev r else s
  | [] => s
  end.

(** *** The tokens of the SMILES pattern *)

Definition bracket_token (t : str) : bool :=
  match t with
  | x :: t' =>
      eqb x (ch "[") &&
      match rev t' with
      | y :: r =>
          let body := rev r in
          eqb y (ch "]") && (1 <=? length body) && (length body <=? 10)
          && forallb (fun c => negb (eqb c (ch "[") || eqb c (ch "]"))) body
      | [] => false
      end
  | [] => false
  end.

Definition between (lo hi : ascii) (c : char) : bool :=
  ((ch lo <=? c) && (c <=? ch hi))%N.

Arguments between (lo hi)%_char c.

(** The characters of the last alternative. *)
Definition single_char (c : char) : bool :=
  between "B" "I" c || between "K" "Z" c
  || between "b" "i" c || between "k" "z" c
  || between "0" "9" c
  || mem c (lit "=#$%@+->()/\.").

Definition smiles_token (t : str) : bool :=
  eqb t (lit ">>") || bracket_token t || mem t (map lit elements)
  || match t with
     | [c] => single_char c
     | _ => false
     end.

(** *** [encode], piece by piece *)

Definition classify (self : CustomTokenizer) (piece : str) : list str :=
  if is_reaction_class piece then [piece]
  else if mem piece (vocab self) then [piece]
  else tokenize_smiles piece.

Definition lookup_id (self : CustomTokenizer) (token : str) : Z :=
  match dict_get (token_to_id self) token with
  | Some tid => tid
  | None => unk_token_id self
  end.

Definition encode_spec (self : CustomTokenizer) (text : str) : list Z :=
  map (lookup_id self) (flat_map (classify self) (split text)).

(** *** [decode]: filtering, then joining *)

Definition lookup_token (self : CustomTokenizer) (i : Z) : str :=
  match dict_get (id_to_token self) i with
  | Some token => token
  | None => unk_token
  end.

Definition kept_tokens (self : CustomTokenizer) (token_ids : list Z) : list str :=
  map (lookup_token self)
      (filter (fun i => negb (eqb i (pad_token_id self))) token_ids).

Definition needs_space (prev token : str) : bool :=
  is_reaction_class token || is_reaction_class prev
  || startswith token (ch "[") || startswith prev (ch "[").

Fixpoint join_after (prev : str) (tokens : list str) : str :=
  match tokens with
  | [] => []
  | token :: tokens' =>
      (if needs_space prev token then [ch " "] else [])
      ++ token ++ join_after token tokens'
  end.

Definition join_spaced (tokens : list str) : str :=
  match tokens with
  | [] => []
  | token :: tokens' => token ++ join_after token tokens'
  end.

End Reference.

(** *** Vocabularies *)

(** [sub in self.vocab] *)
Definition in_vocab (self : CustomTokenizer) (sub : str) : bool :=
  mem sub (vocab self).

Fixpoint distinct {A} `{Eqb A} (l : list A) : bool :=
  match l with
  | [] => true
  | x :: l' => negb (mem x l') && distinct l'
  end.

(** No two tokens share an id. *)
Definition unique_ids (self : CustomTokenizer) : bool :=
  distinct (map snd (token_to_id self)).

Definition required_tokens : list str :=
  [pad_token; mask_token; unk_token; eos_token; noagent_token].

(** The exception that [_require_token] raises for [token]. *)
Definition missing_message (token : str) : exn :=
  ValueError (token ++ lit " token is missing in vocabulary!").

Definition special_items : list (str * Z) :=
  [ (pad_token, 0); (mask_token, 1); (unk_token, 2); (eos_token, 3);
    (noagent_token, 4) ]%Z.

(** The vocabulary of the round-trip test: the special tokens, [>>] and the
    characters of [CCO>>CCCBr]. *)
Definition smoke_vocab : list (str * Z) :=
  special_items ++
  [ (lit ">>", 5); (lit "C", 6); (lit "O", 7); (lit "B", 8); (lit "r", 9);
    (lit ">", 10) ]%Z.

(** The same with the element [Br] and the reaction class [2.12.13]. *)
Definition smoke_vocab_full : list (str * Z) :=
  smoke_vocab ++ [ (lit "Br", 11); (lit "2.12.13", 12) ]%Z.

(** [smoke_vocab_full] with [O] given the id of [C]. *)
Definition shared_id_vocab : list (str * Z) :=
  special_items ++
  [ (lit ">>", 5); (lit "C", 6); (lit "O", 6); (lit "B", 8); (lit "r", 9);
    (lit ">", 10); (lit "Br", 11); (lit "2.12.13", 12) ]%Z.

(** The vocabulary of the greedy example as the specification gives it;
    it lacks four of the required tokens. *)
Definition greedy_example : list (str * Z) :=
  [ (lit "ab", 0); (lit "a", 1); (lit "[UNK]", 2) ]%Z.

(** The vocabulary of the greedy example, made constructible. *)
Definition greedy_vocab : list (str * Z) :=
  greedy_example ++
  [ (pad_token, 3); (mask_token, 4); (eos_token, 5); (noagent_token, 6) ]%Z.

(** A runtime without decimal digits beyond ASCII. *)
Definition ascii_only : UnicodeTable := fun _ => false.

(** *** Further reference definitions *)

(** What [decode] shows for a token that [encode] emitted: the token
    itself, or the unknown token when it is not in the vocabulary. *)
Definition surface (self : CustomTokenizer) (token : str) : str :=
  if in_vocab self token then token else unk_token.

(** The tokens that [encode] emits for a text, before the id mapping. *)
Definition tokens_of {U : UnicodeTable} (self : CustomTokenizer) (text : str)
  : list str :=
  flat_map (classify self) (split text).

(** No character of [s] is whitespace. *)
Definition no_space (s : str) : bool := forallb (fun c => negb (isspace c)) s.

(** The characters with which a token of more than one character can
    start: [>>], a bracket group and the two-letter elements. *)
Definition starts_longer (x : char) : bool := mem x (lit ">[BCSNLMZFHA").

(** [cut s tokens]: the tokens lie in [s] one after the other, in order,
    with possibly some characters before, between and after them. *)
Inductive cut : str -> list str -> Prop :=
| cut_end (gap : str) : cut gap []
| cut_token (gap w s : str) (ws : list str) :
    cut s ws -> cut (gap ++ w ++ s) (w :: ws).

(** Every character but the space. *)
Definition not_blank (c : char) : bool := negb (eqb c (ch " ")).

(** Patterns without [^]. *)
Fixpoint bol_free (r : regex) : bool :=
  match r with
  | Lit _ | Class _ _ | Eol => true
  | Cat r1 r2 | Alt r1 r2 => bol_free r1 && bol_free r2
  | Rep _ _ r | Group r => bol_free r
  | Bol => false
  end.

(** The cursor [c] seen [k] characters further into a longer string. *)
Definition shift (k : nat) (c : cursor) : cursor :=
  Cursor (k + pos c) (rest c).

(** * Properties *)

(** ** Equality tests *)

Class EqbLaws (A : Type) {E : Eqb A} :=
  eqb_eq : forall x y : A, eqb x y = true <-> x = y.

Arguments EqbLaws A {E}.

#[export] Instance EqbLaws_N : EqbLaws N := N.eqb_eq.
#[export] Instance EqbLaws_Z : EqbLaws Z := Z.eqb_eq.

Lemma list_eqb_eq {A} `{EqbLaws A} (l1 l2 : list A) :
  list_eqb l1 l2 = true <-> l1 = l2.
Proof.
  revert l2; induction l1 as [|x l1 IH]; intros [|y l2]; simpl;
    try (split; [discriminate | congruence]); try tauto.
  rewrite andb_true_iff, eqb_eq, IH. split.
  - intros [-> ->]; reflexivity.
  - intros Heq; injection Heq; auto.
Qed.

#[export] Instance EqbLaws_list {A} `{EqbLaws A} : EqbLaws (list A) :=
  list_eqb_eq.

Lemma eqb_refl {A} `{EqbLaws A} (x : A) : eqb x x = true.
Proof. apply eqb_eq; reflexivity. Qed.

Lemma eqb_neq {A} `{EqbLaws A} (x y : A) : eqb x y = false <-> x <> y.
Proof.
  rewrite <- eqb_eq. destruct (eqb x y); split; congruence.
Qed.

Lemma mem_In {A} `{EqbLaws A} (x : A) (l : list A) : mem x l = true <-> In x l.
Proof.
  unfold mem. rewrite existsb_exists. split.
  - intros (y & Hy & Heq). apply eqb_eq in Heq. subst; assumption.
  - intros Hx. exists x. split; [assumption | apply eqb_refl].
Qed.

(** ** The matcher and the meaning of patterns *)

Lemma strip_prefix_spec (p s s' : str) :
  strip_prefix p s = Some s' <-> s = p ++ s'.
Proof.
  revert s; induction p as [|x p IH]; intros s; simpl.
  - split; congruence.
  - destruct s as [|y s]; [split; discriminate|].
    destruct (eqb x y) eqn:Hxy.
    + apply eqb_eq in Hxy. subst y. rewrite IH. split; congruence.
    + apply eqb_neq in Hxy. split; [discriminate | congruence].
Qed.

Lemma adv_nil (c : cursor) : adv c [] c.
Proof. split; simpl; [reflexivity | lia]. Qed.

Lemma adv_trans (c m c' : cursor) (w1 w2 : str) :
  adv c w1 m -> adv m w2 c' -> adv c (w1 ++ w2) c'.
Proof.
  intros [H1 H2] [H3 H4]. split.
  - rewrite H1, H3. apply app_assoc.
  - rewrite H4, H2, length_app. lia.
Qed.

Lemma adv_unique (c c1 c2 : cursor) (w : str) :
  adv c w c1 -> adv c w c2 -> c1 = c2.
Proof.
  destruct c1 as [p1 r1], c2 as [p2 r2]. unfold adv; simpl.
  intros [H1 H2] [H3 H4]. rewrite H1 in H3. apply app_inv_head in H3.
  congruence.
Qed.

Lemma adv_nil_inv (c c' : cursor) : adv c [] c' -> c' = c.
Proof. intros H. apply (adv_unique H (adv_nil c)). Qed.

Lemma rep_iter (step : cursor -> list cursor) (R : cursor -> cursor -> Prop) :
  (forall a b, In b (step a) <-> R a b) ->
  forall hi lo c c',
    In c' (rep step lo hi c) <-> exists k, lo <= k /\ k <= hi /\ iter R k c c'.
Proof.
  intros HR. induction hi as [|hi IH]; intros lo c c'; simpl.
  - destruct lo; simpl.
    + split.
      * intros [<-|[]]. exists 0. simpl. auto.
      * intros (k & _ & Hk & Hi). assert (k = 0) by lia. subst k. left. exact Hi.
    + split; [intros [] | intros (k & ? & ? & _); lia].
  - rewrite in_app_iff, in_flat_map. split.
    + intros [(m & Hm & Hc)|Hc].
      * apply IH in Hc. destruct Hc as (k & Hlo & Hhi & Hi).
        exists (S k). split; [lia|]. split; [lia|]. simpl.
        exists m. split; [apply HR; exact Hm | exact Hi].
      * destruct lo; [|destruct Hc]. destruct Hc as [<-|[]].
        exists 0. simpl. split; [lia|]. split; [lia|reflexivity].
    + intros (k & Hlo & Hhi & Hi). destruct k as [|k]; simpl in Hi.
      * right. assert (lo = 0) by lia. subst lo. left. exact Hi.
      * left. destruct Hi as (m & Hm & Hi). exists m. split; [apply HR; exact Hm|].
        apply IH. exists k. split; [lia|]. split; [lia|exact Hi].
Qed.

Section Matcher.

Context {U : UnicodeTable}.

(** The matcher finds exactly the matches of the pattern. *)
Lemma run_den (r : regex) : forall c c', In c' (run r c) <-> den r c c'.
Proof.
  induction r as [s|neg items|r1 IH1 r2 IH2|r1 IH1 r2 IH2|lo hi r IH|r IH| |];
    intros c c'; simpl.
  - destruct (strip_prefix s (rest c)) as [s'|] eqn:Hs.
    + apply strip_prefix_spec in Hs. simpl. split.
      * intros [<-|[]]. split; simpl; [exact Hs | reflexivity].
      * intros H. left. symmetry. apply (adv_unique H). split; simpl; auto.
    + split; [intros []|]. intros [H _].
      apply strip_prefix_spec in H. congruence.
  - destruct (rest c) as [|x s'] eqn:Hc.
    + split; [intros []|]. intros (x & _ & H & _). rewrite Hc in H. discriminate.
    + destruct (in_class neg items x) eqn:Hx; simpl.
      * split.
        -- intros [<-|[]]. exists x. split; [exact Hx|]. split; simpl; [exact Hc | lia].
        -- intros (y & _ & H). left. destruct H as [H1 H2]. rewrite Hc in H1.
           simpl in H1. injection H1 as -> H1. destruct c' as [p' r']. simpl in *.
           f_equal; [lia | auto].
      * split; [intros []|]. intros (y & Hy & H & _). rewrite Hc in H.
        simpl in H. injection H as -> _. congruence.
  - rewrite in_flat_map. split; intros (m & H1 & H2); exists m;
      (split; [apply IH1; exact H1 | apply IH2; exact H2]).
  - rewrite in_app_iff, IH1, IH2. reflexivity.
  - destruct hi as [h|]; apply rep_iter; exact IH.
  - apply IH.
  - destruct (pos c) eqn:Hp.
    + simpl. split; [intros [<-|[]]; auto | intros [_ ->]; auto].
    + split; [intros [] | intros [? _]; discriminate].
  - destruct (rest c) as [|x [|y s']] eqn:Hc.
    + simpl. split; [intros [<-|[]]; auto | intros [-> _]; auto].
    + destruct (eqb x nl) eqn:Hx.
      * apply eqb_eq in Hx. subst x. simpl.
        split; [intros [<-|[]]; auto | intros [-> _]; auto].
      * apply eqb_neq in Hx. split; [intros []|].
        intros [_ [H|H]]; [discriminate | congruence].
    + split; [intros []|]. intros [_ [H|H]]; discriminate.
Qed.

Lemma iter_adv (R : cursor -> cursor -> Prop) :
  (forall a b, R a b -> exists w, adv a w b) ->
  forall k c c', iter R k c c' -> exists w, adv c w c'.
Proof.
  intros HR. induction k as [|k IH]; intros c c'; simpl.
  - intros <-. exists []. apply adv_nil.
  - intros (m & Hm & Hi). apply HR in Hm. apply IH in Hi.
    destruct Hm as (w1 & H1), Hi as (w2 & H2).
    exists (w1 ++ w2). eapply adv_trans; eassumption.
Qed.

(** A match only moves forward, over a piece of the subject string. *)
Lemma den_adv (r : regex) : forall c c', den r c c' -> exists w, adv c w c'.
Proof.
  induction r as [s|neg items|r1 IH1 r2 IH2|r1 IH1 r2 IH2|lo hi r IH|r IH| |];
    intros c c'; simpl.
  - intros H. exists s. exact H.
  - intros (x & _ & H). exists [x]. exact H.
  - intros (m & H1 & H2). apply IH1 in H1. apply IH2 in H2.
    destruct H1 as (w1 & H1), H2 as (w2 & H2).
    exists (w1 ++ w2). eapply adv_trans; eassumption.
  - intros [H|H]; [apply IH1 | apply IH2]; exact H.
  - intros (k & _ & _ & H). apply (@iter_adv _ IH) in H. exact H.
  - apply IH.
  - intros [_ ->]. exists []. apply adv_nil.
  - intros [-> _]. exists []. apply adv_nil.
Qed.

Lemma run_adv (r : regex) (c c' : cursor) :
  In c' (run r c) -> exists w, adv c w c'.
Proof. intros H. apply run_den in H. apply (den_adv _ _ _ H). Qed.

End Matcher.

Lemma adv_split (c c' : cursor) (w1 w2 : str) :
  adv c (w1 ++ w2) c' -> exists m, adv c w1 m /\ adv m w2 c'.
Proof.
  intros [H1 H2]. exists (Cursor (pos c + length w1) (w2 ++ rest c')).
  unfold adv; simpl. rewrite H1, H2, length_app, <- app_assoc.
  repeat split; lia.
Qed.

(** Iterating a relation that reads one word of a given kind reads a
    sequence of such words. *)
Lemma iter_words (R : cursor -> cursor -> Prop) (P : str -> Prop) :
  (forall a b, R a b <-> exists w, P w /\ adv a w b) ->
  forall k c c',
    iter R k c c' <->
    exists ws, length ws = k /\ Forall P ws /\ adv c (concat ws) c'.
Proof.
  intros HR. induction k as [|k IH]; intros c c'; simpl.
  - split.
    + intros <-. exists []. split; [reflexivity|]. split; [constructor | apply adv_nil].
    + intros (ws & Hl & _ & Ha). destruct ws; [|discriminate].
      symmetry. apply adv_nil_inv. exact Ha.
  - split.
    + intros (m & Hm & Hi). apply HR in Hm. apply IH in Hi.
      destruct Hm as (w & Hw & Ha), Hi as (ws & Hl & Hws & Has).
      exists (w :: ws). simpl. split; [congruence|]. split; [constructor; auto|].
      eapply adv_trans; eassumption.
    + intros (ws & Hl & Hws & Ha). destruct ws as [|w ws]; [discriminate|].
      simpl in *. apply adv_split in Ha. destruct Ha as (m & Ha1 & Ha2).
      inversion Hws; subst. exists m. split.
      * apply HR. exists w. auto.
      * apply IH. exists ws. auto.
Qed.

Lemma forallb_ext {A} (p q : A -> bool) (l : list A) :
  (forall x, p x = q x) -> forallb p l = forallb q l.
Proof.
  intros Hpq. induction l as [|x l IH]; simpl; [reflexivity|].
  rewrite Hpq, IH. reflexivity.
Qed.

Lemma singletons_forallb (p : char -> bool) (ws : list str) :
  Forall (fun w => exists x, w = [x] /\ p x = true) ws ->
  length (concat ws) = length ws /\ forallb p (concat ws) = true.
Proof.
  induction 1 as [|w ws (x & -> & Hx) _ [IH1 IH2]]; simpl; [auto|].
  rewrite Hx, IH1, IH2. auto.
Qed.

Lemma forallb_singletons (p : char -> bool) (w : str) :
  forallb p w = true ->
  Forall (fun w => exists x, w = [x] /\ p x = true) (map (fun x => [x]) w)
  /\ concat (map (fun x => [x]) w) = w.
Proof.
  induction w as [|x w IH]; simpl; [auto|].
  rewrite andb_true_iff. intros [Hx Hw]. destruct (IH Hw) as [IH1 IH2].
  split; [constructor; eauto | congruence].
Qed.

(** A character class reads one character of the class. *)
Lemma den_class {U : UnicodeTable} (negated : bool) (items : list item)
    (c c' : cursor) :
  den (Class negated items) c c' <->
  exists w, (exists x, w = [x] /\ in_class negated items x = true) /\ adv c w c'.
Proof.
  simpl. split.
  - intros (x & Hx & Ha). exists [x]. eauto.
  - intros (w & (x & -> & Hx) & Ha). exists x. auto.
Qed.

(** ** Reaction classes *)

Section ReactionClass.

Context {U : UnicodeTable}.

Lemma is_digit_dot : is_digit dot = false.
Proof. reflexivity. Qed.

Lemma is_digit_nl : is_digit nl = false.
Proof. reflexivity. Qed.

Lemma in_class_digit (x : char) : in_class false [Digit] x = is_digit x.
Proof. unfold in_class. simpl. apply orb_false_r. Qed.

Lemma digit_group_spec (g : str) :
  digit_group g = true <-> 1 <= length g /\ forallb is_digit g = true.
Proof.
  destruct g as [|x g]; simpl.
  - split; [discriminate | intros [? _]; lia].
  - split; [intros H; split; [lia | exact H] | intros [_ H]; exact H].
Qed.

(** [\d+] reads a non-empty run of digits. *)
Lemma den_digits (c c' : cursor) :
  den (plus (Class false [Digit])) c c' <->
  exists g, digit_group g = true /\ adv c g c'.
Proof.
  unfold plus. cbn [den]. split.
  - intros (k & Hk & _ & Hi).
    apply (@iter_words _ _ (den_class false [Digit])) in Hi.
    destruct Hi as (ws & Hl & Hws & Ha).
    apply singletons_forallb in Hws. destruct Hws as [H1 H2].
    exists (concat ws). split; [|exact Ha].
    apply digit_group_spec. split; [lia|].
    rewrite <- H2. apply forallb_ext. intros x. symmetry. apply in_class_digit.
  - intros (g & Hg & Ha). apply digit_group_spec in Hg. destruct Hg as [H1 H2].
    exists (length g). split; [exact H1|]. split.
    + destruct Ha as [Ha _]. rewrite Ha, length_app. lia.
    + apply (@iter_words _ _ (den_class false [Digit])).
      destruct (@forallb_singletons (in_class false [Digit]) g) as [H3 H4].
      { rewrite <- H2. apply forallb_ext. apply in_class_digit. }
      exists (map (fun x => [x]) g). rewrite length_map, H4. auto.
Qed.

(** [(\.\d+)] reads a dot and a group. *)
Lemma den_dot_group (c c' : cursor) :
  den (Group (Cat (Lit (lit ".")) (plus (Class false [Digit])))) c c' <->
  exists w, (exists g, w = dot :: g /\ digit_group g = true) /\ adv c w c'.
Proof.
  cbn [den]. split.
  - intros (m & H1 & H2). apply den_digits in H2. destruct H2 as (g & Hg & H2).
    exists (dot :: g). split; [eauto|]. apply (adv_trans H1 H2).
  - intros (w & (g & -> & Hg) & Ha).
    change (dot :: g) with (lit "." ++ g) in Ha. apply adv_split in Ha.
    destruct Ha as (m & H1 & H2). exists m. split; [exact H1|].
    apply den_digits. eauto.
Qed.

Lemma dot_groups (ws : list str) :
  Forall (fun w => exists g, w = dot :: g /\ digit_group g = true) ws ->
  exists gs, ws = map (cons dot) gs /\ forallb digit_group gs = true.
Proof.
  induction 1 as [|w ws (g & -> & Hg) _ (gs & -> & Hgs)].
  - exists []. auto.
  - exists (g :: gs). simpl. rewrite Hg, Hgs. auto.
Qed.

Lemma groups_dot (gs : list str) :
  forallb digit_group gs = true ->
  Forall (fun w => exists g, w = dot :: g /\ digit_group g = true)
         (map (cons dot) gs).
Proof.
  induction gs as [|g gs IH]; simpl; [constructor|].
  rewrite andb_true_iff. intros [Hg Hgs]. constructor; eauto.
Qed.

Lemma length_dotted (gs : list str) : length gs <= length (dotted gs).
Proof.
  unfold dotted. induction gs as [|g gs IH]; simpl; [lia|].
  rewrite length_app. lia.
Qed.

(** [(\.\d+)*] reads any number of dotted groups. *)
Lemma den_dot_groups (c c' : cursor) :
  den (star (Group (Cat (Lit (lit ".")) (plus (Class false [Digit]))))) c c' <->
  exists gs, forallb digit_group gs = true /\ adv c (dotted gs) c'.
Proof.
  unfold star. cbn [den]. split.
  - intros (k & _ & _ & Hi). apply (@iter_words _ _ den_dot_group) in Hi.
    destruct Hi as (ws & _ & Hws & Ha). apply dot_groups in Hws.
    destruct Hws as (gs & -> & Hgs). exists gs. auto.
  - intros (gs & Hgs & Ha). exists (length gs). split; [lia|]. split.
    + destruct Ha as [Ha _]. rewrite Ha, length_app.
      pose proof (length_dotted gs). lia.
    + apply (@iter_words _ _ den_dot_group). exists (map (cons dot) gs).
      rewrite length_map. split; [reflexivity|]. split; [|exact Ha].
      apply groups_dot. exact Hgs.
Qed.

(** What the reaction-class pattern accepts: dotted groups of digits, and
    the same followed by one line feed. *)
Lemma is_reaction_class_shape (s : str) :
  is_reaction_class s = true <->
  exists g gs tail,
    digit_group g = true /\ forallb digit_group gs = true /\
    (tail = [] \/ tail = [nl]) /\ s = g ++ dotted gs ++ tail.
Proof.
  unfold is_reaction_class, re_match.
  assert (Hne : forall l : list cursor,
             match hd_error l with Some _ => true | None => false end = true
             <-> exists c', In c' l).
  { intros [|x l]; simpl.
    - split; [discriminate | intros (? & [])].
    - split; [eauto | reflexivity]. }
  rewrite Hne. clear Hne. unfold reaction_class_pattern. split.
  - intros (c' & H). apply run_den in H. cbn [den] in H.
    destruct H as (m0 & [_ ->] & m1 & H1 & m2 & H2 & -> & H3).
    apply den_digits in H1. destruct H1 as (g & Hg & [H1 _]).
    apply den_dot_groups in H2. destruct H2 as (gs & Hgs & [H2 _]).
    exists g, gs, (rest m2). simpl in H1. rewrite H1, H2. auto.
  - intros (g & gs & tail & Hg & Hgs & Ht & ->).
    set (s := g ++ dotted gs ++ tail).
    exists (Cursor (length g + length (dotted gs)) tail).
    apply run_den. cbn [den].
    exists (start s). split; [auto|].
    exists (Cursor (length g) (dotted gs ++ tail)). split.
    { apply den_digits. exists g. split; [exact Hg|]. split; reflexivity. }
    exists (Cursor (length g + length (dotted gs)) tail). split.
    { apply den_dot_groups. exists gs. split; [exact Hgs|]. split; reflexivity. }
    auto.
Qed.

End ReactionClass.

Lemma split_on_join (sep : char) (s : str) :
  exists g gs, split_on sep s = g :: gs /\ s = g ++ concat (map (cons sep) gs).
Proof.
  induction s as [|c s (g & gs & Hs & Hj)]; simpl.
  - exists [], []. auto.
  - destruct (eqb c sep) eqn:Hc.
    + apply eqb_eq in Hc. subst c. exists [], (g :: gs).
      rewrite Hs. simpl. split; [reflexivity | f_equal; exact Hj].
    + rewrite Hs. exists (c :: g), gs. simpl. split; [reflexivity | f_equal; exact Hj].
Qed.

Lemma split_on_groups (sep : char) (gs : list str) :
  Forall (fun g => ~ In sep g) gs ->
  forall g, ~ In sep g ->
  split_on sep (g ++ concat (map (cons sep) gs)) = g :: gs.
Proof.
  induction 1 as [|g' gs Hg' _ IH]; intros g Hg.
  - simpl. rewrite app_nil_r. induction g as [|c g IHg]; simpl; [reflexivity|].
    destruct (eqb c sep) eqn:Hc.
    + apply eqb_eq in Hc. subst c. destruct Hg. left. reflexivity.
    + rewrite IHg; [reflexivity|]. intros Hin. apply Hg. right. exact Hin.
  - simpl. induction g as [|c g IHg]; simpl.
    + rewrite eqb_refl. rewrite (IH g' Hg'). reflexivity.
    + destruct (eqb c sep) eqn:Hc.
      * apply eqb_eq in Hc. subst c. destruct Hg. left. reflexivity.
      * rewrite IHg; [reflexivity|]. intros Hin. apply Hg. right. exact Hin.
Qed.

Section DottedDigits.

Context {U : UnicodeTable}.

Lemma digit_group_no_dot (g : str) : digit_group g = true -> ~ In dot g.
Proof.
  intros Hg Hin. apply digit_group_spec in Hg. destruct Hg as [_ Hg].
  rewrite forallb_forall in Hg. apply Hg in Hin.
  rewrite is_digit_dot in Hin. discriminate.
Qed.

Lemma dotted_digits_shape (s : str) :
  dotted_digits s = true <->
  exists g gs,
    digit_group g = true /\ forallb digit_group gs = true /\
    s = g ++ dotted gs.
Proof.
  unfold dotted_digits. split.
  - intros H. destruct (split_on_join (ch ".") s) as (g & gs & Hs & Hj).
    rewrite Hs in H. simpl in H. apply andb_true_iff in H.
    exists g, gs. tauto.
  - intros (g & gs & Hg & Hgs & ->). unfold dotted.
    rewrite split_on_groups.
    + simpl. rewrite Hg, Hgs. reflexivity.
    + rewrite forallb_forall in Hgs. apply Forall_forall.
      intros g' Hg'. apply digit_group_no_dot. auto.
    + apply digit_group_no_dot. exact Hg.
Qed.

Lemma digit_group_last (g : str) :
  digit_group g = true -> exists pre x, g = pre ++ [x] /\ is_digit x = true.
Proof.
  intros Hg. apply digit_group_spec in Hg. destruct Hg as [Hl Hg].
  destruct (exists_last (l := g)) as (pre & x & ->).
  { intros ->. simpl in Hl. lia. }
  exists pre, x. split; [reflexivity|].
  rewrite forallb_app in Hg. simpl in Hg.
  apply andb_true_iff in Hg. destruct Hg as [_ Hg].
  apply andb_true_iff in Hg. tauto.
Qed.

Lemma dotted_last (gs : list str) :
  forallb digit_group gs = true ->
  forall g, digit_group g = true ->
  exists pre x, g ++ dotted gs = pre ++ [x] /\ is_digit x = true.
Proof.
  induction gs as [|g' gs IH]; simpl; intros Hgs g Hg.
  - unfold dotted. simpl. rewrite app_nil_r. apply digit_group_last. exact Hg.
  - apply andb_true_iff in Hgs. destruct Hgs as [Hg' Hgs].
    destruct (IH Hgs g' Hg') as (pre & x & E & Hx).
    exists (g ++ dot :: pre), x. split; [|exact Hx].
    unfold dotted in *. simpl. rewrite E, <- app_assoc. reflexivity.
Qed.

End DottedDigits.

Lemma chomp_nl (s : str) : chomp (s ++ [nl]) = s.
Proof.
  unfold chomp. rewrite rev_app_distr. simpl. apply rev_involutive.
Qed.

Lemma chomp_other (s : str) (x : char) : x <> nl -> chomp (s ++ [x]) = s ++ [x].
Proof.
  intros Hx. unfold chomp. rewrite rev_app_distr. simpl.
  apply eqb_neq in Hx. rewrite Hx. reflexivity.
Qed.

Lemma chomp_cases (s : str) : s = chomp s \/ s = chomp s ++ [nl].
Proof.
  destruct s as [|y s]; [left; reflexivity|].
  destruct (exists_last (l := y :: s)) as (pre & x & ->); [discriminate|].
  destruct (eqb x nl) eqn:Hx.
  - apply eqb_eq in Hx. subst x. rewrite chomp_nl. auto.
  - apply eqb_neq in Hx. rewrite chomp_other; auto.
Qed.

Section ReactionClassTheorem.

Context {U : UnicodeTable}.

(** [is_reaction_class] decides: dotted groups of digits, up to one final
    line feed. *)
Lemma is_reaction_class_chomp (s : str) :
  is_reaction_class s = dotted_digits (chomp s).
Proof.
  apply eq_true_iff_eq.
  rewrite is_reaction_class_shape, dotted_digits_shape. split.
  - intros (g & gs & tail & Hg & Hgs & Ht & ->). exists g, gs.
    split; [exact Hg|]. split; [exact Hgs|].
    destruct (@dotted_last _ gs Hgs g Hg) as (pre & x & E & Hx).
    rewrite app_assoc, E. destruct Ht as [-> | ->].
    + rewrite app_nil_r. apply chomp_other.
      intros ->. rewrite is_digit_nl in Hx. discriminate.
    + apply chomp_nl.
  - intros (g & gs & Hg & Hgs & E).
    destruct (chomp_cases s) as [Hs|Hs]; rewrite E in Hs.
    + exists g, gs, []. rewrite app_nil_r. auto.
    + exists g, gs, [nl]. rewrite <- app_assoc in Hs. auto.
Qed.

(** C3 ([is_reaction_class]). The pattern [^\d+(\.\d+)*$] accepts a string
    exactly when the string, without one final line feed if it has one, is
    made of one or more non-empty groups of digits separated by single dots.
    So the examples of the claim hold, but the anchoring at the end is not
    strict: ["7\n"] is accepted although it is not of that form. *)
Theorem is_reaction_class_spec :
  (forall s, is_reaction_class s = dotted_digits (chomp s))
  /\ is_reaction_class (lit "2.12.13") = true
  /\ is_reaction_class (lit "7") = true
  /\ is_reaction_class [] = false
  /\ is_reaction_class (lit "2..3") = false
  /\ is_reaction_class (lit "2.a") = false
  /\ is_reaction_class (lit "CCO") = false
  /\ is_reaction_class (lit "1.2..3") = false
  /\ is_reaction_class (lit "7" ++ [nl]) = true
  /\ dotted_digits (lit "7" ++ [nl]) = false.
Proof.
  split; [exact is_reaction_class_chomp|].
  repeat split; reflexivity.
Qed.

End ReactionClassTheorem.

(** ** The SMILES segmenter *)

Lemma adv_word (c c' : cursor) (w : str) :
  adv c w c' -> firstn (pos c' - pos c) (rest c) = w.
Proof.
  intros [H1 H2]. rewrite H1, H2.
  replace (pos c + length w - pos c) with (length w + 0) by lia.
  rewrite firstn_app_2. simpl. apply app_nil_r.
Qed.

Lemma adv_same (c c' : cursor) (w1 w2 : str) :
  adv c w1 c' -> adv c w2 c' -> w1 = w2.
Proof.
  intros H1 H2. apply adv_word in H1. apply adv_word in H2. congruence.
Qed.

Section Segmenter.

Context {U : UnicodeTable}.

(** Every string that [findall] returns is the text of a first match. *)
Lemma findall_tokens (r : regex) (t : str) :
  forall fuel c,
    In t (findall_fuel fuel r c) ->
    exists c1 c2, hd_error (run r c1) = Some c2 /\ adv c1 t c2.
Proof.
  induction fuel as [|fuel IH]; intros c; simpl; [intros []|].
  assert (Hskip : In t match rest c with
                       | [] => []
                       | _ :: s' => findall_fuel fuel r (Cursor (S (pos c)) s')
                       end ->
                  exists c1 c2, hd_error (run r c1) = Some c2 /\ adv c1 t c2).
  { destruct (rest c); [intros [] | apply IH]. }
  destruct (run r c) as [|c' l] eqn:Hrun; [exact Hskip|].
  assert (Hin : In c' (run r c)) by (rewrite Hrun; left; reflexivity).
  apply run_adv in Hin. destruct Hin as (w & Hw).
  rewrite (adv_word Hw).
  assert (Hhd : In t (w :: nil) ->
                exists c1 c2, hd_error (run r c1) = Some c2 /\ adv c1 t c2).
  { intros [<-|[]]. exists c, c'. rewrite Hrun. auto. }
  destruct (pos c' =? pos c); simpl; intros [Ht|Ht].
  - apply Hhd. left. exact Ht.
  - apply Hskip. exact Ht.
  - apply Hhd. left. exact Ht.
  - apply IH in Ht. exact Ht.
Qed.

(** The fuel that [findall] gives itself suffices: any larger amount
    produces the same result. *)
Lemma findall_fuel_enough (r : regex) :
  forall n m c,
    length (rest c) < n -> length (rest c) < m ->
    findall_fuel n r c = findall_fuel m r c.
Proof.
  induction n as [|n IH]; intros m c Hn Hm; [lia|].
  destruct m as [|m]; [lia|]. simpl.
  assert (Hskip : match rest c with
                  | [] => []
                  | _ :: s' => findall_fuel n r (Cursor (S (pos c)) s')
                  end
                  = match rest c with
                    | [] => []
                    | _ :: s' => findall_fuel m r (Cursor (S (pos c)) s')
                    end).
  { destruct (rest c) as [|x s'] eqn:Hc; [reflexivity|].
    simpl in Hn, Hm. apply IH; simpl; lia. }
  rewrite Hskip.
  destruct (run r c) as [|c' l] eqn:Hrun; [reflexivity|].
  assert (Hin : In c' (run r c)) by (rewrite Hrun; left; reflexivity).
  apply run_adv in Hin. destruct Hin as (w & Hw1 & Hw2).
  destruct (pos c' =? pos c) eqn:Hp; [reflexivity|].
  apply Nat.eqb_neq in Hp. f_equal.
  rewrite Hw1, length_app in Hn, Hm. apply IH; lia.
Qed.

Lemma in_class_single_char (c : char) :
  in_class false smiles_chars c = single_char c.
Proof.
  unfold in_class, single_char, smiles_chars, between, mem.
  cbn [existsb in_item lit map list_ascii_of_string xorb].
  rewrite <- !orb_assoc. reflexivity.
Qed.

Lemma in_class_not_bracket (c : char) :
  in_class true [One (ch "["); One (ch "]")] c
  = negb (eqb c (ch "[") || eqb c (ch "]")).
Proof.
  unfold in_class. cbn [existsb in_item]. rewrite orb_false_r.
  destruct (_ || _); reflexivity.
Qed.

Lemma smiles_token_intro (t : str) :
  eqb t (lit ">>") = true \/ bracket_token t = true
  \/ mem t (map lit elements) = true
  \/ (exists c, t = [c] /\ single_char c = true) ->
  smiles_token t = true.
Proof.
  unfold smiles_token. intros [H|[H|[H|(c & -> & H)]]]; rewrite H.
  - reflexivity.
  - apply orb_true_iff. left. apply orb_true_iff. left. apply orb_true_r.
  - apply orb_true_iff. left. apply orb_true_r.
  - apply orb_true_r.
Qed.

Lemma bracket_token_intro (body : str) :
  1 <= length body -> length body <= 10 ->
  forallb (in_class true [One (ch "["); One (ch "]")]) body = true ->
  bracket_token (lit "[" ++ body ++ lit "]") = true.
Proof.
  intros H1 H2 H3. unfold bracket_token.
  cbn [lit map list_ascii_of_string app]. rewrite rev_app_distr.
  cbn [rev app]. rewrite rev_involutive.
  rewrite (forallb_ext _ _ body in_class_not_bracket) in H3. rewrite H3.
  apply Nat.leb_le in H1, H2. rewrite H1, H2. reflexivity.
Qed.

(** The bracket alternative reads [[], one to ten characters that are not
    brackets, and []]. *)
Lemma den_bracket_atom (c c' : cursor) :
  den bracket_atom c c' -> exists w, adv c w c' /\ bracket_token w = true.
Proof.
  unfold bracket_atom. cbn [den].
  intros (m & H1 & m2 & (k & Hk1 & Hk2 & Hi) & H2).
  apply (@iter_words _ _ (den_class true [One (ch "["); One (ch "]")])) in Hi.
  destruct Hi as (ws & Hl & Hws & Ha).
  apply singletons_forallb in Hws. destruct Hws as [H3 H4].
  exists (lit "[" ++ concat ws ++ lit "]"). split.
  - apply (adv_trans H1). apply (adv_trans Ha H2).
  - apply bracket_token_intro; [lia | lia | exact H4].
Qed.

Lemma den_alts (rs : list regex) :
  forall r c c',
    den (alts r rs) c c' <-> exists r', In r' (r :: rs) /\ den r' c c'.
Proof.
  induction rs as [|r1 rs IH]; intros r c c'; cbn [alts].
  - split.
    + intros H. exists r. split; [left; reflexivity | exact H].
    + intros (r' & [<-|[]] & H). exact H.
  - cbn [den]. rewrite IH. split.
    + intros [H|(r' & Hr' & H)].
      * exists r. split; [left; reflexivity | exact H].
      * exists r'. split; [right; exact Hr' | exact H].
    + intros (r' & [<-|Hr'] & H); [left; exact H | right; eauto].
Qed.

(** Whatever the SMILES pattern matches is a token of one of its four
    kinds. *)
Lemma den_SMILES_REGEX (c c' : cursor) :
  den SMILES_REGEX c c' -> exists w, adv c w c' /\ smiles_token w = true.
Proof.
  unfold SMILES_REGEX. cbn [den]. rewrite den_alts.
  intros (r & [<-|[<-|Hr]] & H).
  - exists (lit ">>"). split; [exact H|]. reflexivity.
  - apply den_bracket_atom in H. destruct H as (w & Ha & Hw).
    exists w. split; [exact Ha|]. apply smiles_token_intro. auto.
  - apply in_app_iff in Hr. destruct Hr as [Hr|[<-|[]]].
    + apply in_map_iff in Hr. destruct Hr as (e & <- & He).
      exists (lit e). split; [exact H|]. apply smiles_token_intro.
      right. right. left. apply mem_In. apply in_map. exact He.
    + cbn [den] in H. destruct H as (x & Hx & Ha). exists [x].
      split; [exact Ha|]. apply smiles_token_intro.
      right. right. right. exists x. rewrite <- in_class_single_char. auto.
Qed.

Lemma tokenize_smiles_smiles_token (s t : str) :
  In t (tokenize_smiles s) -> smiles_token t = true.
Proof.
  intros H. apply findall_tokens in H. destruct H as (c1 & c2 & Hhd & Ha).
  assert (Hin : In c2 (run SMILES_REGEX c1)).
  { destruct (run SMILES_REGEX c1); [discriminate|].
    injection Hhd as ->. left. reflexivity. }
  apply run_den, den_SMILES_REGEX in Hin. destruct Hin as (w & Hw & Ht).
  rewrite (adv_same Ha Hw). exact Ht.
Qed.

(** At a [>] that is not followed by another [>] the pattern matches that
    one character. *)
Lemma run_SMILES_REGEX_gt (p : nat) (s : str) :
  startswith s (ch ">") = false ->
  hd_error (run SMILES_REGEX (Cursor p (ch ">" :: s))) = Some (Cursor (S p) s).
Proof.
  intros Hs.
  assert (H : strip_prefix (lit ">>") (ch ">" :: s) = None).
  { destruct s as [|x s]; [reflexivity|].
    change (strip_prefix (lit ">>") (ch ">" :: x :: s))
      with (if N.eqb (ch ">") x then Some s else None).
    change (N.eqb x (ch ">") = false) in Hs.
    rewrite N.eqb_sym, Hs. reflexivity. }
  unfold SMILES_REGEX. cbn [run alts elements map app rest pos]. rewrite H.
  reflexivity.
Qed.

End Segmenter.

(** C2 ([tokenize_smiles]), as amended. The single-character alternative of
    the SMILES pattern is the class B-I, K-Z, b-i, k-z, 0-9 and the symbols
    [= # $ % @ + - > ( ) / \ .], which includes [>]. Every emitted token is
    [>>], a bracket group, a two-letter element or one character of that
    class, so [J] and [j] are never emitted; a [>] that is not followed by
    another [>] is matched as the one-character token [>] and emitted. *)
Theorem tokenize_smiles_tokens {U : UnicodeTable} :
  (forall c, in_class false smiles_chars c = single_char c)
  /\ single_char (ch ">") = true
  /\ (forall s t, In t (tokenize_smiles s) -> smiles_token t = true)
  /\ (forall s, ~ In (lit "J") (tokenize_smiles s)
                /\ ~ In (lit "j") (tokenize_smiles s))
  /\ (forall p s,
        startswith s (ch ">") = false ->
        hd_error (run SMILES_REGEX (Cursor p (ch ">" :: s)))
        = Some (Cursor (S p) s))
  /\ tokenize_smiles (lit ">") = [lit ">"]
  /\ tokenize_smiles (lit "C>C") = [lit "C"; lit ">"; lit "C"]
  /\ tokenize_smiles (lit "J>j") = [lit ">"].
Proof.
  split; [exact in_class_single_char|].
  split; [reflexivity|].
  split; [exact tokenize_smiles_smiles_token|].
  split.
  { intros s. split; intros H; apply tokenize_smiles_smiles_token in H;
      discriminate H. }
  split; [exact run_SMILES_REGEX_gt|].
  repeat split; reflexivity.
Qed.

Lemma tokenize_smiles_tokens_witness :
  smiles_token (lit ">") = true
  /\ hd_error (run (U := ascii_only) SMILES_REGEX (Cursor 1 (lit ">C")))
     = Some (Cursor 2 (lit "C")).
Proof.
  pose proof (@tokenize_smiles_tokens ascii_only) as (_ & _ & H3 & _ & H5 & _).
  split.
  - apply (H3 (lit "C>C")). vm_compute. auto.
  - apply (H5 1 (lit "C")). reflexivity.
Defined.

(** C2, as stated: a bare [>] is emitted, not dropped. *)
Lemma tokenize_smiles_emits_gt :
  ~ (forall s, ~ In (lit ">") (tokenize_smiles (U := ascii_only) s)).
Proof.
  intros H. apply (H (lit "C>C")). vm_compute. auto.
Qed.

(** ** Dictionaries *)

Section DictFacts.

Context {K V : Type} {E : Eqb K} {L : EqbLaws K}.

Implicit Types (d : dict K V) (k : K) (v : V).

Lemma dict_get_app d1 d2 k :
  dict_get (d1 ++ d2) k
  = match dict_get d1 k with Some v => Some v | None => dict_get d2 k end.
Proof.
  induction d1 as [|[k' v'] d1 IH]; simpl; [reflexivity|].
  destruct (eqb k' k); [reflexivity | exact IH].
Qed.

Lemma dict_get_set d k v k' :
  dict_get (dict_set d k v) k' = if eqb k k' then Some v else dict_get d k'.
Proof.
  induction d as [|[k0 v0] d IH]; simpl; [reflexivity|].
  destruct (eqb k0 k) eqn:H0; simpl.
  - apply eqb_eq in H0. subst k0. destruct (eqb k k'); reflexivity.
  - rewrite IH. destruct (eqb k0 k') eqn:H1; [|reflexivity].
    apply eqb_eq in H1. subst k0. destruct (eqb k k') eqn:H2; [|reflexivity].
    apply eqb_eq in H2. subst k'. rewrite eqb_refl in H0. discriminate.
Qed.

(** A dict built from pairs maps a key to the value of its last pair. *)
Lemma dict_get_fold (items : list (K * V)) :
  forall d k,
    dict_get (fold_left (fun d kv => dict_set d (fst kv) (snd kv)) items d) k
    = match dict_get (rev items) k with
      | Some v => Some v
      | None => dict_get d k
      end.
Proof.
  induction items as [|[k0 v0] items IH]; intros d k; simpl; [reflexivity|].
  rewrite IH, dict_get_app, dict_get_set. simpl.
  destruct (dict_get (rev items) k); [reflexivity|].
  destruct (eqb k0 k); reflexivity.
Qed.

Lemma dict_get_of_items (items : list (K * V)) k :
  dict_get (dict_of_items items) k = dict_get (rev items) k.
Proof.
  unfold dict_of_items. rewrite dict_get_fold.
  destruct (dict_get (rev items) k); reflexivity.
Qed.

Lemma dict_get_In d k v : dict_get d k = Some v -> In (k, v) d.
Proof.
  induction d as [|[k' v'] d IH]; simpl; [discriminate|].
  destruct (eqb k' k) eqn:Hk.
  - apply eqb_eq in Hk. subst k'. intros [= ->]. left. reflexivity.
  - intros H. right. apply IH. exact H.
Qed.

Lemma dict_get_mem d k v : dict_get d k = Some v -> mem k (map fst d) = true.
Proof.
  intros H. apply mem_In. apply dict_get_In in H.
  apply (in_map fst) in H. exact H.
Qed.

Lemma mem_dict_get d k :
  mem k (map fst d) = true -> exists v, dict_get d k = Some v.
Proof.
  induction d as [|[k' v'] d IH]; simpl; [discriminate|].
  destruct (eqb k' k) eqn:Hk; [eauto|].
  unfold mem in *. simpl. destruct (eqb k k') eqn:Hk'.
  - apply eqb_eq in Hk'. subst k'. rewrite eqb_refl in Hk. discriminate.
  - simpl. exact IH.
Qed.

Lemma distinct_NoDup (l : list K) : distinct l = true <-> NoDup l.
Proof.
  induction l as [|x l IH]; simpl.
  - split; [constructor | reflexivity].
  - rewrite andb_true_iff, negb_true_iff, IH. split.
    + intros [Hx Hl]. constructor; [|exact Hl].
      intros Hin. apply mem_In in Hin. congruence.
    + intros Hnd. inversion Hnd as [|? ? Hx Hl]; subst. split; [|exact Hl].
      destruct (mem x l) eqn:Hm; [|reflexivity].
      apply mem_In in Hm. contradiction.
Qed.

(** With distinct keys, every pair of the list is what a lookup finds. *)
Lemma In_dict_get d k v :
  NoDup (map fst d) -> In (k, v) d -> dict_get d k = Some v.
Proof.
  induction d as [|[k' v'] d IH]; simpl; [intros _ []|].
  intros Hnd Hin. inversion Hnd as [|? ? Hk' Hd]; subst.
  destruct Hin as [[= -> ->]|Hin].
  - rewrite eqb_refl. reflexivity.
  - destruct (eqb k' k) eqn:Hk; [|apply IH; assumption].
    apply eqb_eq in Hk. subst k'. destruct Hk'.
    apply (in_map fst) in Hin. exact Hin.
Qed.

End DictFacts.

(** The inverse table sends an id back to its token when no two tokens
    share an id. *)
Lemma inverse_lookup (d : dict str Z) (t : str) (i : Z) :
  distinct (map snd d) = true ->
  dict_get d t = Some i ->
  dict_get (dict_of_items (map (fun kv => (snd kv, fst kv)) d)) i = Some t.
Proof.
  intros Hd Ht. rewrite dict_get_of_items. apply In_dict_get.
  - rewrite <- map_rev, map_map. simpl. rewrite map_rev.
    apply NoDup_rev. apply distinct_NoDup. exact Hd.
  - apply in_rev. rewrite rev_involutive.
    apply dict_get_In in Ht.
    apply (in_map (fun kv : str * Z => (snd kv, fst kv))) in Ht. exact Ht.
Qed.

(** ** Construction *)

Lemma bind_Ok {A B} (m : result A) (k : A -> result B) (b : B) :
  bind m k = Ok b -> exists a, m = Ok a /\ k a = Ok b.
Proof. destruct m as [a|e]; simpl; [eauto | discriminate]. Qed.

Lemma _require_token_Ok (d : dict str Z) (token : str) (tid : Z) :
  _require_token d token = Ok tid <-> dict_get d token = Some tid.
Proof.
  unfold _require_token. destruct (dict_get d token); split; congruence.
Qed.

(** What a constructed tokenizer holds. *)
Lemma __init___Ok (vocab_data : list (str * Z)) (self : CustomTokenizer) :
  __init__ vocab_data = Ok self ->
  token_to_id self = dict_of_items vocab_data
  /\ id_to_token self
     = dict_of_items (map (fun kv => (snd kv, fst kv)) (token_to_id self))
  /\ vocab self = map fst (token_to_id self)
  /\ dict_get (token_to_id self) pad_token = Some (pad_token_id self)
  /\ dict_get (token_to_id self) mask_token = Some (mask_token_id self)
  /\ dict_get (token_to_id self) unk_token = Some (unk_token_id self)
  /\ dict_get (token_to_id self) eos_token = Some (eos_token_id self)
  /\ dict_get (token_to_id self) noagent_token = Some (noagent_token_id self).
Proof.
  unfold __init__. intros H.
  apply bind_Ok in H. destruct H as (i1 & H1 & H).
  apply bind_Ok in H. destruct H as (i2 & H2 & H).
  apply bind_Ok in H. destruct H as (i3 & H3 & H).
  apply bind_Ok in H. destruct H as (i4 & H4 & H).
  apply bind_Ok in H. destruct H as (i5 & H5 & H).
  injection H as <-. simpl.
  rewrite _require_token_Ok in H1, H2, H3, H4, H5. tauto.
Qed.

(** Construction raises for the first required token that is absent, and
    succeeds when none is. *)
Lemma __init___cases (vocab_data : list (str * Z)) :
  (exists token,
      In token required_tokens
      /\ dict_get (dict_of_items vocab_data) token = None
      /\ __init__ vocab_data = Raise (missing_message token))
  \/ ((forall token, In token required_tokens ->
         dict_get (dict_of_items vocab_data) token <> None)
      /\ exists self, __init__ vocab_data = Ok self).
Proof.
  unfold __init__, required_tokens.
  set (d := dict_of_items vocab_data).
  assert (Hreq : forall token,
             _require_token d token = Raise (missing_message token)
             /\ dict_get d token = None
             \/ exists tid, _require_token d token = Ok tid
                            /\ dict_get d token = Some tid).
  { intros token. unfold _require_token.
    destruct (dict_get d token); [right; eauto | left; auto]. }
  destruct (Hreq pad_token) as [[H1 G1]|(i1 & H1 & G1)]; rewrite H1;
    [left; exists pad_token; simpl; auto|].
  destruct (Hreq mask_token) as [[H2 G2]|(i2 & H2 & G2)]; simpl; rewrite H2;
    [left; exists mask_token; simpl; auto|].
  destruct (Hreq unk_token) as [[H3 G3]|(i3 & H3 & G3)]; simpl; rewrite H3;
    [left; exists unk_token; simpl; auto|].
  destruct (Hreq eos_token) as [[H4 G4]|(i4 & H4 & G4)]; simpl; rewrite H4;
    [left; exists eos_token; simpl; auto 6|].
  destruct (Hreq noagent_token) as [[H5 G5]|(i5 & H5 & G5)]; simpl; rewrite H5;
    [left; exists noagent_token; simpl; auto 7|].
  right. split; [|simpl; eauto].
  intros token [<-|[<-|[<-|[<-|[<-|[]]]]]]; congruence.
Qed.

(** ** Splitting on whitespace *)

Lemma split_from_lstrip (s : str) : split_from [] (lstrip s) = split_from [] s.
Proof.
  induction s as [|c s IH]; simpl; [reflexivity|].
  destruct (isspace c) eqn:Hc; simpl; [exact IH|].
  rewrite Hc. reflexivity.
Qed.

Lemma split_from_snoc_space (w : char) (s : str) :
  isspace w = true ->
  forall cur, split_from cur (s ++ [w]) = split_from cur s.
Proof.
  intros Hw. induction s as [|c s IH]; intros cur; simpl.
  - rewrite Hw. simpl. apply app_nil_r.
  - destruct (isspace c); rewrite IH; reflexivity.
Qed.

Lemma split_from_rstrip (s cur : str) :
  split_from cur (rstrip s) = split_from cur s.
Proof.
  unfold rstrip. rewrite <- (rev_involutive s) at 2.
  induction (rev s) as [|c r IH]; simpl; [reflexivity|].
  destruct (isspace c) eqn:Hc; [|reflexivity].
  rewrite split_from_snoc_space by exact Hc. exact IH.
Qed.

(** [strip] changes nothing for [split]. *)
Lemma split_strip (s : str) : split (strip s) = split s.
Proof.
  unfold split, strip. rewrite split_from_rstrip. apply split_from_lstrip.
Qed.

Lemma fold_left_extend {A B} (f : A -> list B) (l : list A) :
  forall acc,
    fold_left (fun acc x => acc ++ f x) l acc = acc ++ flat_map f l.
Proof.
  induction l as [|x l IH]; intros acc; simpl.
  - symmetry. apply app_nil_r.
  - rewrite IH. symmetry. apply app_assoc.
Qed.

Lemma fold_left_ext {A St} (f g : St -> A -> St) (l : list A) :
  (forall s x, f s x = g s x) ->
  forall s, fold_left f l s = fold_left g l s.
Proof.
  intros Hfg. induction l as [|x l IH]; intros s; simpl; [reflexivity|].
  rewrite Hfg. apply IH.
Qed.

(** ** [encode] *)

Section Encode.

Context {U : UnicodeTable}.

(** [encode] maps, in order, the tokens of the pieces to their ids. *)
Lemma encode_encode_spec (self : CustomTokenizer) (text : str) :
  encode self text = encode_spec self text.
Proof.
  unfold encode, encode_spec. rewrite split_strip.
  rewrite (fold_left_ext _ (fun acc x => acc ++ classify self x)).
  - rewrite fold_left_extend. reflexivity.
  - intros tokens piece. unfold classify.
    destruct (is_reaction_class piece); [reflexivity|].
    destruct (mem piece (vocab self)); reflexivity.
Qed.

Lemma lookup_id_image (vocab_data : list (str * Z)) (self : CustomTokenizer)
    (token : str) :
  __init__ vocab_data = Ok self ->
  exists token', dict_get (token_to_id self) token' = Some (lookup_id self token).
Proof.
  intros H. apply __init___Ok in H.
  destruct H as (_ & _ & _ & _ & _ & Hunk & _).
  unfold lookup_id. destruct (dict_get (token_to_id self) token) eqn:Ht.
  - exists token. exact Ht.
  - exists unk_token. exact Hunk.
Qed.

Lemma encode_pad (vocab_data : list (str * Z)) (self : CustomTokenizer) :
  __init__ vocab_data = Ok self ->
  encode self pad_token = [pad_token_id self].
Proof.
  intros H. apply __init___Ok in H.
  destruct H as (_ & _ & Hv & Hpad & _).
  rewrite encode_encode_spec. unfold encode_spec.
  change (split pad_token) with [pad_token]. simpl.
  unfold classify. change (is_reaction_class pad_token) with false.
  rewrite Hv, (dict_get_mem _ _ Hpad). simpl.
  unfold lookup_id. rewrite Hpad. reflexivity.
Qed.

(** C4 ([encode]). [encode] is the id mapping, with the unknown-token id as
    fallback, of the tokens of the whitespace-separated pieces in order, a
    piece giving itself when it is a reaction class, else itself when it is
    in the vocabulary, else its SMILES sub-tokens. It is a total function,
    without any raising step; and [encode("[PAD]")] is [[pad_token_id]] for
    every constructed tokenizer. *)
Theorem encode_spec_correct :
  (forall self text,
      encode self text
      = map (lookup_id self) (flat_map (classify self) (split text)))
  /\ (forall self piece,
        classify self piece
        = if is_reaction_class piece then [piece]
          else if mem piece (vocab self) then [piece]
          else tokenize_smiles piece)
  /\ (forall self token,
        lookup_id self token
        = match dict_get (token_to_id self) token with
          | Some tid => tid
          | None => unk_token_id self
          end)
  /\ (forall vocab_data self,
        __init__ vocab_data = Ok self ->
        encode self (lit "[PAD]") = [pad_token_id self]).
Proof.
  split; [exact encode_encode_spec|].
  split; [reflexivity|].
  split; [reflexivity|].
  exact encode_pad.
Qed.

(** C10 ([encode]). For a constructed tokenizer every id that [encode]
    returns is the id of some token in [token_to_id]. *)
Theorem encode_ids_in_vocabulary (vocab_data : list (str * Z))
    (self : CustomTokenizer) (text : str) (i : Z) :
  __init__ vocab_data = Ok self ->
  In i (encode self text) ->
  exists token, dict_get (token_to_id self) token = Some i.
Proof.
  intros Hinit Hi. rewrite encode_encode_spec in Hi. unfold encode_spec in Hi.
  apply in_map_iff in Hi. destruct Hi as (token & <- & _).
  eapply lookup_id_image. exact Hinit.
Qed.

End Encode.

Lemma encode_spec_correct_witness :
  exists self,
    __init__ smoke_vocab = Ok self
    /\ encode (U := ascii_only) self (lit "[PAD]") = [pad_token_id self].
Proof.
  eexists. split; [reflexivity|].
  apply (proj2 (proj2 (proj2 (@encode_spec_correct ascii_only))) smoke_vocab).
  reflexivity.
Defined.

Lemma encode_ids_in_vocabulary_witness :
  exists self,
    __init__ smoke_vocab = Ok self
    /\ exists token, dict_get (token_to_id self) token = Some 2%Z.
Proof.
  eexists. split; [reflexivity|].
  apply (@encode_ids_in_vocabulary ascii_only smoke_vocab _
           (lit "CCO>>CCCBr 2.12.13") 2%Z); [reflexivity|].
  vm_compute. auto 10.
Defined.

(** ** [decode] *)

Lemma fold_left_keep {A B} (drop : A -> bool) (f : A -> B) (l : list A) :
  forall acc,
    fold_left (fun acc x => if drop x then acc else acc ++ [f x]) l acc
    = acc ++ map f (filter (fun x => negb (drop x)) l).
Proof.
  induction l as [|x l IH]; intros acc; simpl.
  - symmetry. apply app_nil_r.
  - rewrite IH. destruct (drop x); simpl; [reflexivity|].
    rewrite <- app_assoc. reflexivity.
Qed.

Lemma getitem_middle {A} (l1 l2 : list A) (x : A) :
  getitem ((l1 ++ [x]) ++ l2) (length l1) = Ok x.
Proof.
  unfold getitem. rewrite <- app_assoc. simpl.
  rewrite nth_error_app2 by lia. rewrite Nat.sub_diag. reflexivity.
Qed.

Section Decode.

Context {U : UnicodeTable}.

(** The condition of the [elif] never raises when the previous token
    exists, and is the disjunction of the four tests. *)
Lemma spaced_needs_space (tokens : list str) (i : nat) (prev token : str) :
  getitem tokens (i - 1) = Ok prev ->
  spaced tokens i token = Ok (needs_space prev token).
Proof.
  intros Hprev. unfold spaced, needs_space. rewrite Hprev. simpl.
  destruct (is_reaction_class token); [reflexivity|].
  destruct (is_reaction_class prev); [reflexivity|].
  simpl. destruct (startswith token _); reflexivity.
Qed.

(** The joining loop, from a token that has a predecessor on. *)
Lemma for_each_join (tokens : list str) :
  forall suffix before prev acc,
    tokens = (before ++ [prev]) ++ suffix ->
    exists parts,
      for_each (join_body tokens)
               (combine (seq (S (length before)) (length suffix)) suffix) acc
      = Ok parts
      /\ concat parts = concat acc ++ join_after prev suffix.
Proof.
  induction suffix as [|token suffix IH]; intros before prev acc Ht; simpl.
  - exists acc. rewrite app_nil_r. auto.
  - assert (Hprev : getitem tokens (S (length before) - 1) = Ok prev).
    { simpl. rewrite Nat.sub_0_r, Ht. apply getitem_middle. }
    rewrite (@spaced_needs_space tokens _ prev token Hprev). simpl.
    destruct (IH (before ++ [prev]) token
                (acc ++ [(if needs_space prev token then [ch " "] else [])
                         ++ token])) as (parts & Hr & Hc).
    { rewrite Ht, <- !app_assoc. reflexivity. }
    rewrite length_app, Nat.add_1_r in Hr.
    exists parts. split.
    + rewrite <- Hr. destruct (needs_space prev token); reflexivity.
    + rewrite Hc, concat_app. simpl. rewrite app_nil_r, <- !app_assoc.
      reflexivity.
Qed.

Lemma decode_unfold (self : CustomTokenizer) (token_ids : list Z) :
  decode self token_ids
  = match kept_tokens self token_ids with
    | [] => Ok []
    | tokens =>
        parts <- for_each (join_body tokens) (enumerate tokens) [] ;;
        Ok (concat parts)
    end.
Proof.
  unfold decode, kept_tokens.
  rewrite (fold_left_keep (fun i => eqb i (pad_token_id self))
             (fun i => dict_get_default (id_to_token self) i unk_token)).
  cbn [app].
  change (lookup_token self)
    with (fun i => dict_get_default (id_to_token self) i unk_token).
  destruct token_ids as [|i token_ids]; [reflexivity|].
  generalize (map (fun i => dict_get_default (id_to_token self) i unk_token)
                (filter (fun i => negb (eqb i (pad_token_id self)))
                        (i :: token_ids))).
  intros [|token tokens]; reflexivity.
Qed.

(** [decode] never raises, and returns the spaced join of the tokens of
    the ids that are not the pad id. *)
Lemma decode_join (self : CustomTokenizer) (token_ids : list Z) :
  decode self token_ids = Ok (join_spaced (kept_tokens self token_ids)).
Proof.
  rewrite decode_unfold.
  destruct (kept_tokens self token_ids) as [|token tokens]; [reflexivity|].
  unfold enumerate. simpl.
  destruct (@for_each_join (token :: tokens) tokens [] token [token])
    as (parts & Hr & Hc); [reflexivity|].
  simpl in Hr. rewrite Hr. simpl. rewrite Hc. simpl.
  rewrite app_nil_r. reflexivity.
Qed.

Lemma kept_tokens_pad (self : CustomTokenizer) (token_ids : list Z) :
  kept_tokens self (pad_token_id self :: token_ids)
  = kept_tokens self token_ids.
Proof.
  unfold kept_tokens. simpl. rewrite eqb_refl. reflexivity.
Qed.

Lemma decode_pad (self : CustomTokenizer) (token_ids : list Z) :
  decode self (pad_token_id self :: token_ids) = decode self token_ids.
Proof. rewrite !decode_join, kept_tokens_pad. reflexivity. Qed.

Lemma decode_pads (self : CustomTokenizer) (n : nat) :
  decode self (repeat (pad_token_id self) n) = Ok [].
Proof.
  induction n as [|n IH]; [reflexivity|].
  cbn [repeat]. rewrite decode_pad. exact IH.
Qed.

(** C5 ([decode]). The result of [decode] is built from the tokens of the
    ids other than the pad id: the first token as it is, every later token
    after exactly one space when it or the token before it is a reaction
    class or starts with [[], and directly otherwise. *)
Theorem decode_spacing :
  (forall self token_ids,
      decode self token_ids
      = Ok (join_spaced
              (map (lookup_token self)
                   (filter (fun i => negb (eqb i (pad_token_id self)))
                           token_ids))))
  /\ join_spaced [] = []
  /\ (forall token tokens,
        join_spaced (token :: tokens) = token ++ join_after token tokens)
  /\ (forall prev, join_after prev [] = [])
  /\ (forall prev token tokens,
        join_after prev (token :: tokens)
        = (if is_reaction_class token || is_reaction_class prev
              || startswith token (ch "[") || startswith prev (ch "[")
           then [ch " "] else [])
          ++ token ++ join_after token tokens).
Proof.
  split; [exact decode_join|]. repeat split; reflexivity.
Qed.

(** C7 ([decode]). Pad ids are dropped: a leading pad id changes nothing,
    in particular [decode([pad, x, y]) = decode([x, y])]; the empty sequence
    and every sequence of pad ids decode to the empty string. *)
Theorem decode_drops_pad :
  (forall self x y,
      decode self [pad_token_id self; x; y] = decode self [x; y])
  /\ (forall self token_ids,
        decode self (pad_token_id self :: token_ids) = decode self token_ids)
  /\ (forall self, decode self [] = Ok [])
  /\ (forall self n, decode self (repeat (pad_token_id self) n) = Ok []).
Proof.
  split; [intros; apply decode_pad|].
  split; [exact decode_pad|].
  split; [reflexivity | exact decode_pads].
Qed.

End Decode.

(** ** [_greedy_tokenize] *)

Lemma range_down_empty (n i : nat) : n <= i -> range_down n i = [].
Proof.
  intros H. unfold range_down. replace (n - i) with 0 by lia. reflexivity.
Qed.

Lemma range_down_S (n i : nat) :
  i <= n -> range_down (S n) i = S n :: range_down n i.
Proof.
  intros H. unfold range_down. replace (S n - i) with (S (n - i)) by lia.
  rewrite seq_S, rev_app_distr. simpl. f_equal. lia.
Qed.

Lemma length_slice (text : str) (i j : nat) :
  j <= length text -> length (slice text i j) = j - i.
Proof.
  intros H. unfold slice. rewrite length_firstn, length_skipn. lia.
Qed.

Section Greedy.

Variable self : CustomTokenizer.
Variable text : str.

(** The inner loop finds the longest piece of the text from [i] that is in
    the vocabulary, if there is one. *)
Lemma greedy_scan_longest (i n : nat) :
  (exists j,
      i < j <= n
      /\ in_vocab self (slice text i j) = true
      /\ (forall j', j < j' <= n -> in_vocab self (slice text i j') = false)
      /\ greedy_scan self text i (range_down n i) None
         = Some (slice text i j))
  \/ ((forall j', i < j' <= n -> in_vocab self (slice text i j') = false)
      /\ greedy_scan self text i (range_down n i) None = None).
Proof.
  induction n as [|n IH].
  - right. rewrite range_down_empty by lia. split; [intros; lia | reflexivity].
  - destruct (Nat.le_gt_cases (S n) i) as [Hle|Hgt].
    + right. rewrite range_down_empty by lia.
      split; [intros; lia | reflexivity].
    + rewrite range_down_S by lia. simpl.
      fold (in_vocab self (slice text i (S n))).
      destruct (in_vocab self (slice text i (S n))) eqn:Hv.
      * left. exists (S n). split; [lia|]. split; [exact Hv|].
        split; [intros; lia | reflexivity].
      * destruct IH as [(j & Hj & Hjv & Hmax & Hscan)|[Hnone Hscan]].
        -- left. exists j. split; [lia|]. split; [exact Hjv|].
           split; [|exact Hscan].
           intros j' Hj'. destruct (Nat.eq_dec j' (S n)) as [->|Hne];
             [exact Hv | apply Hmax; lia].
        -- right. split; [|exact Hscan].
           intros j' Hj'. destruct (Nat.eq_dec j' (S n)) as [->|Hne];
             [exact Hv | apply Hnone; lia].
Qed.

(** One iteration: the longest match from [i] and a move past it, or the
    unknown token and a move by one. *)
Lemma greedy_body_longest (i : nat) (tokens : list str) :
  i < length text ->
  (exists j,
      i < j <= length text
      /\ in_vocab self (slice text i j) = true
      /\ (forall j', j < j' <= length text ->
                     in_vocab self (slice text i j') = false)
      /\ greedy_body self text (i, tokens)
         = (i + length (slice text i j), tokens ++ [slice text i j])
      /\ i + length (slice text i j) = j)
  \/ ((forall j', i < j' <= length text -> in_vocab self (slice text i j') = false)
      /\ greedy_body self text (i, tokens) = (S i, tokens ++ [unk_token])).
Proof.
  intros Hi. unfold greedy_body.
  destruct (greedy_scan_longest i (length text))
    as [(j & Hj & Hjv & Hmax & Hscan)|[Hnone Hscan]]; rewrite Hscan.
  - left. exists j. pose proof (@length_slice text i j) as Hlen.
    destruct (slice text i j) as [|x m] eqn:Hs.
    + simpl in Hlen. lia.
    + repeat (split; [assumption || lia|]). split; [reflexivity|].
      rewrite Hlen; lia.
  - right. auto.
Qed.

Lemma greedy_body_advances (i : nat) (tokens : list str) :
  i < length text ->
  i < fst (greedy_body self text (i, tokens)) <= length text.
Proof.
  intros Hi.
  destruct (greedy_body_longest tokens Hi)
    as [(j & Hj & _ & _ & -> & Hij)|[_ ->]]; simpl; lia.
Qed.

End Greedy.

(** A loop whose body decreases a measure stops within that many
    iterations. *)
Lemma while_fuel_mono {St} (cond : St -> bool) (body : St -> St) :
  forall fuel s s',
    while cond body fuel s = Some s' ->
    forall fuel', fuel <= fuel' -> while cond body fuel' s = Some s'.
Proof.
  induction fuel as [|fuel IH]; intros s s' Hw fuel' Hle; simpl in Hw.
  - destruct (cond s) eqn:Hc; [discriminate|].
    destruct fuel'; simpl; rewrite Hc; exact Hw.
  - destruct fuel' as [|fuel']; [lia|]. simpl.
    destruct (cond s); [|exact Hw]. apply (IH _ _ Hw). lia.
Qed.

Lemma while_terminates {St} (cond : St -> bool) (body : St -> St)
    (measure : St -> nat) :
  (forall s, cond s = true -> measure (body s) < measure s) ->
  forall fuel s,
    measure s <= fuel ->
    exists n s',
      n <= measure s
      /\ while cond body fuel s = Some s'
      /\ s' = Nat.iter n body s
      /\ cond s' = false
      /\ (forall k, k < n -> cond (Nat.iter k body s) = true).
Proof.
  intros Hdec. induction fuel as [|fuel IH]; intros s Hs; simpl.
  - destruct (cond s) eqn:Hc.
    + apply Hdec in Hc. lia.
    + exists 0, s. repeat split; [lia | exact Hc | intros; lia].
  - destruct (cond s) eqn:Hc.
    + pose proof (Hdec s Hc) as Hlt.
      destruct (IH (body s)) as (n & s' & Hn & Hw & Hit & Hc' & Hk); [lia|].
      exists (S n), s'. split; [lia|]. split; [exact Hw|].
      split; [|split; [exact Hc'|]].
      * rewrite Hit. symmetry. apply Nat.iter_succ_r.
      * intros [|k] Hlt'; [exact Hc|]. rewrite Nat.iter_succ_r.
        apply Hk. lia.
    + exists 0, s. repeat split; [lia | exact Hc | intros; lia].
Qed.

Lemma greedy_loop_terminates (self : CustomTokenizer) (text : str)
    (fuel : nat) :
  length text <= fuel ->
  exists n i tokens,
    n <= length text
    /\ greedy_loop fuel self text = Some tokens
    /\ Nat.iter n (greedy_body self text) (0, []) = (i, tokens)
    /\ length text <= i
    /\ (forall k, k < n ->
          fst (Nat.iter k (greedy_body self text) (0, [])) < length text).
Proof.
  intros Hfuel.
  destruct (@while_terminates _ (greedy_cond text) (greedy_body self text)
              (fun st => length text - fst st))
    with (fuel := fuel) (s := (0, @nil str))
    as (n & [i tokens] & Hn & Hw & Hit & Hc & Hk).
  - intros [i tokens] Hc. unfold greedy_cond in Hc. simpl in Hc.
    apply Nat.ltb_lt in Hc.
    pose proof (@greedy_body_advances self text i tokens Hc) as Hadv.
    cbv beta. change (fst (i, tokens)) with i. lia.
  - simpl. lia.
  - exists n, i, tokens. simpl in Hn. split; [lia|].
    unfold greedy_loop. rewrite Hw. split; [reflexivity|].
    split; [symmetry; exact Hit|]. split.
    + unfold greedy_cond in Hc. simpl in Hc. apply Nat.ltb_ge in Hc. exact Hc.
    + intros k Hlt. apply Hk in Hlt. unfold greedy_cond in Hlt.
      apply Nat.ltb_lt in Hlt. exact Hlt.
Qed.

Lemma greedy_loop_fuel (self : CustomTokenizer) (text : str) (fuel : nat) :
  length text <= fuel ->
  greedy_loop fuel self text = _greedy_tokenize self text.
Proof.
  intros Hfuel. unfold _greedy_tokenize, greedy_loop.
  destruct (@greedy_loop_terminates self text (length text) (Nat.le_refl _))
    as (n & i & tokens & _ & Hw & _).
  unfold greedy_loop in Hw.
  destruct (while (greedy_cond text) (greedy_body self text) (length text)
              (0, [])) as [st|] eqn:Hst; [|discriminate].
  rewrite (@while_fuel_mono _ _ _ _ _ _ Hst _ Hfuel). reflexivity.
Qed.

(** ** Bounds of the matcher *)

Lemma flat_map_ext_In {A B} (f g : A -> list B) (l : list A) :
  (forall a, In a l -> f a = g a) -> flat_map f l = flat_map g l.
Proof.
  induction l as [|x l IH]; intros Hfg; simpl; [reflexivity|].
  rewrite (Hfg x) by (left; reflexivity).
  rewrite IH; [reflexivity|]. intros a Ha. apply Hfg. right. exact Ha.
Qed.

(** The number of iterations allowed to an unbounded repetition does not
    limit it when every iteration consumes a character: a larger number
    gives the same matches. *)
Lemma rep_bound_enough (step : cursor -> list cursor) :
  (forall a b, In b (step a) -> length (rest b) < length (rest a)) ->
  forall n m lo c,
    length (rest c) <= n -> length (rest c) <= m ->
    rep step lo n c = rep step lo m c.
Proof.
  intros Hstep.
  assert (Hnone : forall c, length (rest c) = 0 -> step c = []).
  { intros c Hc. destruct (step c) as [|b l] eqn:Hs; [reflexivity|].
    assert (Hb : In b (step c)) by (rewrite Hs; left; reflexivity).
    apply Hstep in Hb. lia. }
  induction n as [|n IH]; intros m lo c Hn Hm.
  - destruct m as [|m]; [reflexivity|]. simpl.
    rewrite Hnone by lia. reflexivity.
  - destruct m as [|m]; simpl.
    + rewrite Hnone by lia. reflexivity.
    + f_equal. apply flat_map_ext_In. intros b Hb.
      apply Hstep in Hb. apply IH; lia.
Qed.

Section MatcherBounds.

Context {U : UnicodeTable}.

Lemma run_Class_consumes (negated : bool) (items : list item) (a b : cursor) :
  In b (run (Class negated items) a) -> length (rest b) < length (rest a).
Proof.
  intros H. apply run_den, den_class in H.
  destruct H as (w & (x & -> & _) & [H _]). rewrite H. simpl. lia.
Qed.

Lemma run_dot_group_consumes (a b : cursor) :
  In b (run (Group (Cat (Lit (lit ".")) (plus (Class false [Digit])))) a) ->
  length (rest b) < length (rest a).
Proof.
  intros H. apply run_den, den_dot_group in H.
  destruct H as (w & (g & -> & _) & [H _]). rewrite H, length_app. simpl. lia.
Qed.

End MatcherBounds.

(** ** The legacy greedy tokenizer, termination and errors *)

(** The example of the specification, for every vocabulary that has [ab]
    and has neither [abc] nor [c]. *)
Lemma greedy_abc (self : CustomTokenizer) :
  in_vocab self (lit "ab") = true ->
  in_vocab self (lit "abc") = false ->
  in_vocab self (lit "c") = false ->
  _greedy_tokenize self (lit "abc") = Some [lit "ab"; lit "[UNK]"].
Proof.
  unfold in_vocab. intros Hab Habc Hc.
  assert (H1 : greedy_body self (lit "abc") (0, []) = (2, [lit "ab"])).
  { unfold greedy_body. change (range_down (length (lit "abc")) 0) with [3; 2; 1].
    cbn [greedy_scan].
    change (slice (lit "abc") 0 3) with (lit "abc").
    change (slice (lit "abc") 0 2) with (lit "ab").
    rewrite Habc, Hab. reflexivity. }
  assert (H2 : greedy_body self (lit "abc") (2, [lit "ab"])
               = (3, [lit "ab"; lit "[UNK]"])).
  { unfold greedy_body. change (range_down (length (lit "abc")) 2) with [3].
    cbn [greedy_scan].
    change (slice (lit "abc") 2 3) with (lit "c").
    rewrite Hc. reflexivity. }
  unfold _greedy_tokenize, greedy_loop.
  change (length (lit "abc")) with 3. cbn [while].
  rewrite H1, H2. reflexivity.
Qed.

(** C8 ([_greedy_tokenize]). From a position [i] inside the text one
    iteration emits the longest [text[i:j]], [i < j <= len(text)], that is
    in the vocabulary and moves to [j], or emits ["[UNK]"] and moves to
    [i + 1] when no such piece is in the vocabulary; the result is what
    these iterations collect from position 0 until the end of the text is
    reached. For the vocabulary with ["ab"], ["a"] and the special tokens,
    and for every vocabulary that has ["ab"] and neither ["abc"] nor ["c"],
    ["abc"] gives [["ab", "[UNK]"]]. *)
Theorem greedy_tokenize_longest_match :
  (forall self text i tokens,
      i < length text ->
      (exists j,
          i < j <= length text
          /\ in_vocab self (slice text i j) = true
          /\ (forall j', j < j' <= length text ->
                         in_vocab self (slice text i j') = false)
          /\ greedy_body self text (i, tokens)
             = (i + length (slice text i j), tokens ++ [slice text i j])
          /\ i + length (slice text i j) = j)
      \/ ((forall j', i < j' <= length text ->
                      in_vocab self (slice text i j') = false)
          /\ greedy_body self text (i, tokens)
             = (S i, tokens ++ [lit "[UNK]"])))
  /\ (forall self text,
        exists n i tokens,
          _greedy_tokenize self text = Some tokens
          /\ Nat.iter n (greedy_body self text) (0, []) = (i, tokens)
          /\ length text <= i
          /\ (forall k, k < n ->
                fst (Nat.iter k (greedy_body self text) (0, []))
                < length text))
  /\ (exists self,
        __init__ greedy_vocab = Ok self
        /\ in_vocab self (lit "ab") = true
        /\ in_vocab self (lit "a") = true
        /\ _greedy_tokenize self (lit "abc") = Some [lit "ab"; lit "[UNK]"])
  /\ (forall self,
        in_vocab self (lit "ab") = true ->
        in_vocab self (lit "abc") = false ->
        in_vocab self (lit "c") = false ->
        _greedy_tokenize self (lit "abc") = Some [lit "ab"; lit "[UNK]"]).
Proof.
  split; [exact greedy_body_longest|]. split.
  - intros self text.
    destruct (@greedy_loop_terminates self text (length text) (Nat.le_refl _))
      as (n & i & tokens & _ & H).
    exists n, i, tokens. exact H.
  - split.
    + eexists. split; [reflexivity|]. repeat split; reflexivity.
    + exact greedy_abc.
Qed.

Lemma greedy_tokenize_longest_match_witness :
  exists self,
    __init__ greedy_vocab = Ok self
    /\ greedy_body self (lit "abc") (0, []) = (2, [lit "ab"])
    /\ _greedy_tokenize self (lit "abc") = Some [lit "ab"; lit "[UNK]"].
Proof.
  eexists. split; [reflexivity|]. split.
  - match goal with
    | |- greedy_body ?self _ _ = _ =>
        destruct (proj1 greedy_tokenize_longest_match self (lit "abc") 0 []
                    ltac:(simpl; lia))
          as [(j & _ & _ & _ & H & _)|[_ H]]
    end; reflexivity.
  - apply (proj2 (proj2 (proj2 greedy_tokenize_longest_match)));
      reflexivity.
Defined.

(** C9 (termination). Each iteration of the greedy loop moves the scan
    position forward, by at least one and not past the end, so the loop
    stops within [len(text)] iterations and more fuel changes nothing;
    the scan of [findall] needs no more steps than the text has positions;
    the iteration bound of the matcher's unbounded repetitions is never the
    limit; and [decode] returns. The other operations are defined by
    structural recursion on their input. *)
Theorem operations_terminate {U : UnicodeTable} :
  (forall self text i tokens,
      i < length text ->
      i < fst (greedy_body self text (i, tokens)) <= length text)
  /\ (forall self text,
        exists n tokens,
          n <= length text
          /\ _greedy_tokenize self text = Some tokens
          /\ tokens = snd (Nat.iter n (greedy_body self text) (0, [])))
  /\ (forall self text fuel,
        length text <= fuel ->
        greedy_loop fuel self text = _greedy_tokenize self text)
  /\ (forall r text fuel,
        length text < fuel ->
        findall_fuel fuel r (start text) = findall r text)
  /\ (forall lo c n,
        length (rest c) <= n ->
        rep (run (Class false [Digit])) lo n c
        = run (Rep lo None (Class false [Digit])) c)
  /\ (forall lo c n,
        length (rest c) <= n ->
        rep (run (Group (Cat (Lit (lit ".")) (plus (Class false [Digit])))))
            lo n c
        = run (Rep lo None
                 (Group (Cat (Lit (lit ".")) (plus (Class false [Digit])))))
              c)
  /\ (forall self token_ids, exists text, decode self token_ids = Ok text).
Proof.
  split; [exact greedy_body_advances|]. split.
  { intros self text.
    destruct (@greedy_loop_terminates self text (length text) (Nat.le_refl _))
      as (n & i & tokens & Hn & Hw & Hit & _).
    exists n, tokens. rewrite Hit. auto. }
  split; [exact greedy_loop_fuel|]. split.
  { intros r text fuel Hfuel. unfold findall.
    apply findall_fuel_enough; simpl; lia. }
  split.
  { intros lo c n Hn. cbn [run].
    apply rep_bound_enough; [apply run_Class_consumes | lia | lia]. }
  split.
  { intros lo c n Hn. cbn [run].
    apply rep_bound_enough; [apply run_dot_group_consumes | lia | lia]. }
  intros self token_ids. eexists. apply decode_join.
Qed.

Lemma operations_terminate_witness :
  exists self,
    __init__ greedy_vocab = Ok self
    /\ 0 < fst (greedy_body self (lit "abc") (0, [])) <= 3
    /\ greedy_loop 5 self (lit "abc") = _greedy_tokenize self (lit "abc")
    /\ findall_fuel (U := ascii_only) 9 SMILES_REGEX (start (lit "C>C"))
       = findall (U := ascii_only) SMILES_REGEX (lit "C>C").
Proof.
  eexists. split; [reflexivity|].
  pose proof (@operations_terminate ascii_only) as (H1 & _ & H3 & H4 & _).
  split; [apply (H1 _ (lit "abc") 0 []); simpl; lia|].
  split; [apply H3; simpl; lia | apply H4; simpl; lia].
Defined.

(** C6 (errors). Construction raises the missing-token error, with the name
    of the token in its message, whenever one of the five required tokens
    has no entry in the mapping, and then no tokenizer is returned; it
    succeeds otherwise. Of the other operations, [decode] (the only one
    with an indexing step) always returns normally and the greedy tokenizer
    always returns its tokens; [encode], [is_reaction_class] and
    [get_special_token_id] have no raising step at all. *)
Theorem construction_requires_special_tokens {U : UnicodeTable} :
  required_tokens
  = [lit "[PAD]"; lit "[MASK]"; lit "[UNK]"; lit "[EOS]"; lit "[NOAGENT]"]
  /\ (forall vocab_data token,
        In token required_tokens ->
        dict_get (dict_of_items vocab_data) token = None ->
        exists missing,
          In missing required_tokens
          /\ dict_get (dict_of_items vocab_data) missing = None
          /\ __init__ vocab_data
             = Raise (ValueError
                        (missing ++ lit " token is missing in vocabulary!")))
  /\ (forall vocab_data,
        (forall token, In token required_tokens ->
                       dict_get (dict_of_items vocab_data) token <> None) ->
        exists self, __init__ vocab_data = Ok self)
  /\ (forall self token_ids, exists text, decode self token_ids = Ok text)
  /\ (forall self text, exists tokens, _greedy_tokenize self text = Some tokens).
Proof.
  split; [reflexivity|]. split.
  { intros vocab_data token Hin Hnone.
    destruct (__init___cases vocab_data) as [H|[H _]]; [exact H|].
    destruct (H token Hin Hnone). }
  split.
  { intros vocab_data Hall.
    destruct (__init___cases vocab_data)
      as [(token & Hin & Hnone & _)|[_ H]]; [|exact H].
    destruct (Hall token Hin Hnone). }
  split.
  { intros self token_ids. eexists. apply decode_join. }
  intros self text.
  destruct (@greedy_loop_terminates self text (length text) (Nat.le_refl _))
    as (n & i & tokens & _ & Hw & _).
  exists tokens. exact Hw.
Qed.

Lemma construction_requires_special_tokens_witness :
  (exists missing,
      In missing required_tokens
      /\ dict_get (dict_of_items greedy_example) missing = None
      /\ __init__ greedy_example
         = Raise (ValueError
                    (missing ++ lit " token is missing in vocabulary!")))
  /\ exists self, __init__ smoke_vocab = Ok self.
Proof.
  pose proof (@construction_requires_special_tokens ascii_only)
    as (_ & H2 & H3 & _).
  split.
  - apply (H2 greedy_example pad_token); [left; reflexivity | reflexivity].
  - apply H3. intros token [<-|[<-|[<-|[<-|[<-|[]]]]]]; discriminate.
Defined.

(** ** The round trip *)

Unset Implicit Arguments.

Section RoundTrip.

Context {U : UnicodeTable}.

Variable vocab_data : list (str * Z).
Variable self : CustomTokenizer.
Hypothesis Hinit : __init__ vocab_data = Ok self.
Hypothesis Hunique : unique_ids self = true.

Lemma lookup_id_get (token : str) :
  in_vocab self token = true ->
  dict_get (token_to_id self) token = Some (lookup_id self token).
Proof.
  destruct (@__init___Ok _ _ Hinit) as (_ & _ & Hv & _).
  unfold in_vocab. rewrite Hv. intros H. apply mem_dict_get in H.
  destruct H as (i & Hi). unfold lookup_id. rewrite Hi. reflexivity.
Qed.

(** An id of a token in the vocabulary decodes to that token. *)
Lemma lookup_token_lookup_id (token : str) :
  in_vocab self token = true ->
  lookup_token self (lookup_id self token) = token.
Proof.
  intros H. apply lookup_id_get in H.
  destruct (@__init___Ok _ _ Hinit) as (_ & Hinv & _).
  unfold lookup_token. rewrite Hinv.
  rewrite (inverse_lookup _ _ Hunique H). reflexivity.
Qed.

Lemma in_vocab_pad : in_vocab self pad_token = true.
Proof.
  destruct (@__init___Ok _ _ Hinit) as (_ & _ & Hv & Hpad & _).
  unfold in_vocab. rewrite Hv. apply (dict_get_mem _ _ Hpad).
Qed.

Lemma lookup_id_pad : lookup_id self pad_token = pad_token_id self.
Proof.
  destruct (@__init___Ok _ _ Hinit) as (_ & _ & _ & Hpad & _).
  unfold lookup_id. rewrite Hpad. reflexivity.
Qed.

Lemma lookup_id_not_pad (token : str) :
  in_vocab self token = true -> token <> pad_token ->
  eqb (lookup_id self token) (pad_token_id self) = false.
Proof.
  intros Hv Hne. apply eqb_neq. intros Heq. apply Hne.
  rewrite <- (lookup_token_lookup_id token Hv), Heq, <- lookup_id_pad.
  apply lookup_token_lookup_id. apply in_vocab_pad.
Qed.

Lemma kept_tokens_lookup_id (tokens : list str) :
  Forall (fun token => in_vocab self token = true /\ token <> pad_token)
         tokens ->
  kept_tokens self (map (lookup_id self) tokens) = tokens.
Proof.
  unfold kept_tokens. induction 1 as [|token tokens [Hv Hne] _ IH]; simpl.
  - reflexivity.
  - rewrite (lookup_id_not_pad token Hv Hne). simpl.
    rewrite (lookup_token_lookup_id token Hv). f_equal. exact IH.
Qed.

Lemma decode_encode_tokens (tokens : list str) :
  Forall (fun token => in_vocab self token = true /\ token <> pad_token)
         tokens ->
  decode self (map (lookup_id self) tokens) = Ok (join_spaced tokens).
Proof.
  intros H. rewrite decode_join, (kept_tokens_lookup_id tokens H). reflexivity.
Qed.

End RoundTrip.

(** C1 (round trip), as amended. For a constructed tokenizer in which no two
    tokens share an id and whose vocabulary contains [C], [O], [>>], the
    element [Br] and the reaction class [2.12.13],
    [decode(encode("CCO>>CCCBr 2.12.13"))] is ["CCO>>CCCBr 2.12.13"]. *)
Theorem decode_encode_smoke {U : UnicodeTable} (vocab_data : list (str * Z))
    (self : CustomTokenizer) :
  __init__ vocab_data = Ok self ->
  unique_ids self = true ->
  forallb (in_vocab self)
          [lit "C"; lit "O"; lit ">>"; lit "Br"; lit "2.12.13"] = true ->
  decode self (encode self (lit "CCO>>CCCBr 2.12.13"))
  = Ok (lit "CCO>>CCCBr 2.12.13").
Proof.
  intros Hinit Hunique Hv.
  cbn [forallb] in Hv. rewrite !andb_true_iff in Hv.
  destruct Hv as (HC & HO & Hgg & HBr & Hrc & _).
  assert (Hne : forall token, eqb token pad_token = false -> token <> pad_token).
  { intros token. apply eqb_neq. }
  rewrite encode_encode_spec. unfold encode_spec.
  change (split (lit "CCO>>CCCBr 2.12.13"))
    with [lit "CCO>>CCCBr"; lit "2.12.13"].
  cbn [flat_map]. unfold classify.
  change (is_reaction_class (lit "2.12.13")) with true.
  change (is_reaction_class (lit "CCO>>CCCBr")) with false.
  cbn iota. fold (in_vocab self (lit "CCO>>CCCBr")).
  destruct (in_vocab self (lit "CCO>>CCCBr")) eqn:Hpiece.
  - cbn [app]. rewrite (decode_encode_tokens vocab_data self Hinit Hunique).
    + reflexivity.
    + repeat constructor; try assumption; apply Hne; reflexivity.
  - assert (Htok : tokenize_smiles (lit "CCO>>CCCBr")
                   = [lit "C"; lit "C"; lit "O"; lit ">>";
                      lit "C"; lit "C"; lit "C"; lit "Br"])
      by reflexivity.
    rewrite Htok. cbn [app]. rewrite (decode_encode_tokens vocab_data self Hinit Hunique).
    + reflexivity.
    + repeat constructor; try assumption; apply Hne; reflexivity.
Qed.

Lemma decode_encode_smoke_witness :
  exists self,
    __init__ smoke_vocab_full = Ok self
    /\ decode (U := ascii_only) self
              (encode (U := ascii_only) self (lit "CCO>>CCCBr 2.12.13"))
       = Ok (lit "CCO>>CCCBr 2.12.13").
Proof.
  eexists. split; [reflexivity|].
  apply (@decode_encode_smoke ascii_only smoke_vocab_full); reflexivity.
Defined.

(** C1, as stated: with the special tokens, [>>] and the single characters
    only, [Br] and [2.12.13] are unknown tokens and come back as [[UNK]]. *)
Lemma decode_encode_smoke_vocab :
  exists self,
    __init__ smoke_vocab = Ok self
    /\ unique_ids self = true
    /\ forallb (in_vocab self)
               (required_tokens
                ++ [lit ">>"; lit "C"; lit "O"; lit "B"; lit "r"; lit ">"])
       = true
    /\ decode (U := ascii_only) self
              (encode (U := ascii_only) self (lit "CCO>>CCCBr 2.12.13"))
       = Ok (lit "CCO>>CCC [UNK] [UNK]")
    /\ decode (U := ascii_only) self
              (encode (U := ascii_only) self (lit "CCO>>CCCBr 2.12.13"))
       <> Ok (lit "CCO>>CCCBr 2.12.13").
Proof.
  eexists. split; [reflexivity|].
  split; [reflexivity|]. split; [reflexivity|]. split; [reflexivity|].
  intros H. vm_compute in H. discriminate H.
Qed.

(** Distinct ids are needed: when [O] shares the id of [C], the inverse
    table keeps the later token and every [C] comes back as [O]. *)
Lemma decode_encode_shared_id :
  exists self,
    __init__ shared_id_vocab = Ok self
    /\ unique_ids self = false
    /\ decode (U := ascii_only) self
              (encode (U := ascii_only) self (lit "CCO>>CCCBr 2.12.13"))
       = Ok (lit "OOO>>OOOBr 2.12.13").
Proof.
  eexists. split; [reflexivity|]. split; reflexivity.
Qed.

(** * Further properties of the tokenizer *)

(** ** The two tables of a constructed tokenizer *)

Section DictKeys.

Context {K V : Type} {E : Eqb K} {L : EqbLaws K}.

Lemma dict_get_None (d : dict K V) (k : K) :
  dict_get d k = None <-> ~ In k (map fst d).
Proof.
  split.
  - intros Hnone Hin. apply mem_In in Hin. apply mem_dict_get in Hin.
    destruct Hin as (v & Hv). congruence.
  - intros Hnin. destruct (dict_get d k) as [v|] eqn:Hk; [|reflexivity].
    destruct Hnin. apply mem_In. apply (dict_get_mem d k Hk).
Qed.

Lemma dict_set_keys (d : dict K V) (k : K) (v : V) :
  map fst (dict_set d k v)
  = if mem k (map fst d) then map fst d else map fst d ++ [k].
Proof.
  induction d as [|[k' v'] d IH]; simpl; [reflexivity|].
  unfold mem in *. simpl. destruct (eqb k' k) eqn:Hk; simpl.
  - apply eqb_eq in Hk. subst k'. rewrite eqb_refl. reflexivity.
  - rewrite IH. destruct (eqb k k') eqn:Hk'.
    + apply eqb_eq in Hk'. subst k'. rewrite eqb_refl in Hk. discriminate.
    + simpl. destruct (existsb (eqb k) (map fst d)); reflexivity.
Qed.

Lemma dict_set_NoDup (d : dict K V) (k : K) (v : V) :
  NoDup (map fst d) -> NoDup (map fst (dict_set d k v)).
Proof.
  intros Hd. rewrite dict_set_keys. destruct (mem k (map fst d)) eqn:Hk.
  - exact Hd.
  - apply NoDup_app; [exact Hd | repeat constructor; intros [] |].
    intros x Hx [<-|[]]. apply mem_In in Hx. congruence.
Qed.

(** A dict has one entry for each key. *)
Lemma dict_of_items_NoDup (items : list (K * V)) :
  NoDup (map fst (dict_of_items items)).
Proof.
  unfold dict_of_items.
  assert (H : forall d, NoDup (map fst d) ->
                NoDup (map fst (fold_left
                                  (fun d kv => dict_set d (fst kv) (snd kv))
                                  items d))).
  { induction items as [|kv items IH]; intros d Hd; simpl; [exact Hd|].
    apply IH. apply dict_set_NoDup. exact Hd. }
  apply H. constructor.
Qed.

(** Its keys are the keys of the pairs it was built from. *)
Lemma dict_of_items_keys (items : list (K * V)) (k : K) :
  In k (map fst (dict_of_items items)) <-> In k (map fst items).
Proof.
  split; intros Hin.
  - apply mem_In, mem_dict_get in Hin. destruct Hin as (v & Hv).
    rewrite dict_get_of_items in Hv. apply dict_get_In in Hv.
    apply in_rev in Hv. apply (in_map fst) in Hv. exact Hv.
  - destruct (dict_get (dict_of_items items) k) as [v|] eqn:Hk.
    + apply mem_In. apply (dict_get_mem _ k Hk).
    + rewrite dict_get_of_items in Hk. apply dict_get_None in Hk.
      destruct Hk. rewrite map_rev. apply in_rev. rewrite rev_involutive.
      exact Hin.
Qed.

Lemma dict_of_items_length (items : list (K * V)) :
  length (dict_of_items items) <= length items.
Proof.
  rewrite <- (length_map fst (dict_of_items items)).
  rewrite <- (length_map fst items).
  apply NoDup_incl_length; [apply dict_of_items_NoDup|].
  intros k. apply dict_of_items_keys.
Qed.

End DictKeys.

Section Tables.

Variable vocab_data : list (str * Z).
Variable self : CustomTokenizer.
Hypothesis Hinit : __init__ vocab_data = Ok self.

Lemma token_to_id_NoDup : NoDup (map fst (token_to_id self)).
Proof.
  destruct (@__init___Ok vocab_data self Hinit) as (-> & _).
  apply dict_of_items_NoDup.
Qed.

Lemma in_vocab_get (token : str) :
  in_vocab self token = true
  <-> exists tid, dict_get (token_to_id self) token = Some tid.
Proof.
  destruct (@__init___Ok vocab_data self Hinit) as (_ & _ & Hv & _).
  unfold in_vocab. rewrite Hv. split.
  - apply mem_dict_get.
  - intros (tid & Ht). apply (dict_get_mem _ _ Ht).
Qed.

Lemma in_vocab_In (token : str) :
  in_vocab self token = true <-> In token (map fst vocab_data).
Proof.
  destruct (@__init___Ok vocab_data self Hinit) as (Hd & _ & Hv & _).
  unfold in_vocab. rewrite Hv, mem_In, Hd. apply dict_of_items_keys.
Qed.

Lemma required_in_vocab (token : str) :
  In token required_tokens -> in_vocab self token = true.
Proof.
  destruct (@__init___Ok vocab_data self Hinit)
    as (_ & _ & _ & H1 & H2 & H3 & H4 & H5).
  intros [<-|[<-|[<-|[<-|[<-|[]]]]]]; apply in_vocab_get; eauto.
Qed.

(** Every entry of the inverse table is an entry of [token_to_id]. *)
Lemma id_to_token_get (i : Z) (token : str) :
  dict_get (id_to_token self) i = Some token ->
  dict_get (token_to_id self) token = Some i.
Proof.
  destruct (@__init___Ok vocab_data self Hinit) as (_ & -> & _).
  rewrite dict_get_of_items. intros H. apply dict_get_In, in_rev in H.
  apply in_map_iff in H. destruct H as ([t j] & [= <- <-] & Hin).
  apply In_dict_get; [apply token_to_id_NoDup | exact Hin].
Qed.

(** Every id of [token_to_id] has an entry in the inverse table. *)
Lemma token_to_id_inverse (token : str) (i : Z) :
  dict_get (token_to_id self) token = Some i ->
  exists token', dict_get (id_to_token self) i = Some token'.
Proof.
  destruct (@__init___Ok vocab_data self Hinit) as (_ & -> & _).
  intros H. apply mem_dict_get, mem_In, dict_of_items_keys.
  apply dict_get_In in H. rewrite map_map. simpl.
  apply (in_map snd) in H. exact H.
Qed.

End Tables.

(** X1 ([vocab_size]). For a constructed tokenizer the vocabulary is the set
    of the tokens of the pairs it was built from, each counted once;
    [vocab_size] is its number of elements, at least five (the required
    tokens) and at most the number of pairs. *)
Theorem vocab_size_counts_tokens (vocab_data : list (str * Z))
    (self : CustomTokenizer) :
  __init__ vocab_data = Ok self ->
  (forall token,
      in_vocab self token = true <-> In token (map fst vocab_data))
  /\ NoDup (vocab self)
  /\ vocab_size self = length (vocab self)
  /\ 5 <= vocab_size self <= length vocab_data.
Proof.
  intros Hinit.
  destruct (@__init___Ok vocab_data self Hinit) as (Hd & _ & Hv & _).
  split; [apply (in_vocab_In vocab_data self Hinit)|].
  split; [rewrite Hv; apply (token_to_id_NoDup vocab_data self Hinit)|].
  split; [unfold vocab_size; rewrite Hv, length_map; reflexivity|].
  unfold vocab_size. split.
  - rewrite <- (length_map fst), <- Hv.
    change 5 with (length required_tokens).
    apply NoDup_incl_length.
    + apply (distinct_NoDup required_tokens). reflexivity.
    + intros token Hin. apply mem_In.
      apply (required_in_vocab vocab_data self Hinit token Hin).
  - rewrite Hd. apply dict_of_items_length.
Qed.

Lemma vocab_size_counts_tokens_witness :
  exists self,
    __init__ (smoke_vocab ++ [(lit "C", 20%Z)]) = Ok self
    /\ vocab_size self = 11
    /\ 5 <= vocab_size self <= 12.
Proof.
  eexists. split; [reflexivity|]. split; [reflexivity|].
  apply (vocab_size_counts_tokens (smoke_vocab ++ [(lit "C", 20%Z)])).
  reflexivity.
Defined.

(** X2 ([get_special_token_id]). For a constructed tokenizer the ids of the
    five special tokens are the stored ids, a token outside the vocabulary
    gets the unknown-token id, and the result is always an id of
    [token_to_id]. *)
Theorem get_special_token_id_spec (vocab_data : list (str * Z))
    (self : CustomTokenizer) :
  __init__ vocab_data = Ok self ->
  get_special_token_id self (lit "[PAD]") = pad_token_id self
  /\ get_special_token_id self (lit "[MASK]") = mask_token_id self
  /\ get_special_token_id self (lit "[UNK]") = unk_token_id self
  /\ get_special_token_id self (lit "[EOS]") = eos_token_id self
  /\ get_special_token_id self (lit "[NOAGENT]") = noagent_token_id self
  /\ (forall token,
        in_vocab self token = false ->
        get_special_token_id self token = unk_token_id self)
  /\ (forall token,
        exists token',
          dict_get (token_to_id self) token'
          = Some (get_special_token_id self token)).
Proof.
  intros Hinit.
  destruct (@__init___Ok vocab_data self Hinit)
    as (_ & _ & _ & H1 & H2 & H3 & H4 & H5).
  unfold get_special_token_id, dict_get_default.
  fold pad_token mask_token unk_token eos_token noagent_token.
  rewrite H1, H2, H3, H4, H5. repeat (split; [reflexivity|]). split.
  - intros token Hv.
    destruct (dict_get (token_to_id self) token) as [tid|] eqn:Ht;
      [|reflexivity].
    assert (in_vocab self token = true)
      by (apply (in_vocab_get vocab_data self Hinit); eauto).
    congruence.
  - intros token. apply (@lookup_id_image vocab_data self token Hinit).
Qed.

Lemma get_special_token_id_spec_witness :
  exists self,
    __init__ smoke_vocab = Ok self
    /\ get_special_token_id self (lit "[EOS]") = 3%Z
    /\ get_special_token_id self (lit "Br") = 2%Z.
Proof.
  eexists. split; [reflexivity|].
  match goal with
  | |- get_special_token_id ?self _ = _ /\ _ =>
      destruct (get_special_token_id_spec smoke_vocab self eq_refl)
        as (_ & _ & _ & H4 & _ & H6 & _)
  end.
  split; [rewrite H4; reflexivity | rewrite H6; reflexivity].
Defined.

(** X3 (the inverse table of [__init__]). An id that the inverse table
    knows decodes to a token whose id it is, and every id of a vocabulary
    token is known: from id to token and back to the id is the identity on
    the ids of the vocabulary, also when tokens share ids. *)
Theorem id_to_token_consistent (vocab_data : list (str * Z))
    (self : CustomTokenizer) :
  __init__ vocab_data = Ok self ->
  (forall i token,
      dict_get (id_to_token self) i = Some token ->
      dict_get (token_to_id self) token = Some i)
  /\ (forall token i,
        dict_get (token_to_id self) token = Some i ->
        in_vocab self (lookup_token self i) = true
        /\ lookup_id self (lookup_token self i) = i).
Proof.
  intros Hinit. split; [apply (id_to_token_get vocab_data self Hinit)|].
  intros token i Ht.
  destruct (token_to_id_inverse vocab_data self Hinit token i Ht)
    as (token' & Hi).
  pose proof (id_to_token_get vocab_data self Hinit i token' Hi) as Hback.
  unfold lookup_token, lookup_id. rewrite Hi, Hback. split; [|reflexivity].
  apply (in_vocab_get vocab_data self Hinit). eauto.
Qed.

Lemma id_to_token_consistent_witness :
  exists self,
    __init__ shared_id_vocab = Ok self
    /\ lookup_token self 6%Z = lit "O"
    /\ lookup_id self (lookup_token self 6%Z) = 6%Z.
Proof.
  eexists. split; [reflexivity|]. split; [reflexivity|].
  match goal with
  | |- lookup_id ?self _ = _ =>
      apply (proj2 (id_to_token_consistent shared_id_vocab self eq_refl)
               (lit "C"))
  end.
  reflexivity.
Defined.

Section TablesUnique.

Variable vocab_data : list (str * Z).
Variable self : CustomTokenizer.
Hypothesis Hinit : __init__ vocab_data = Ok self.

Lemma round_trip_unique_ids :
  (forall token,
      in_vocab self token = true ->
      lookup_token self (lookup_id self token) = token) ->
  unique_ids self = true.
Proof.
  intros Hrt. unfold unique_ids. apply distinct_NoDup.
  apply (NoDup_map_inv (lookup_token self)).
  rewrite map_map.
  rewrite (map_ext_in _ fst); [apply (token_to_id_NoDup vocab_data self Hinit)|].
  intros [token i] Hin. simpl.
  pose proof (In_dict_get (token_to_id self) token i
                (token_to_id_NoDup vocab_data self Hinit) Hin) as Hget.
  assert (Hi : lookup_id self token = i)
    by (unfold lookup_id; rewrite Hget; reflexivity).
  rewrite <- Hi. apply Hrt.
  apply (in_vocab_get vocab_data self Hinit). eauto.
Qed.

Hypothesis Hunique : unique_ids self = true.

Lemma lookup_id_unknown (token : str) :
  in_vocab self token = false -> lookup_id self token = unk_token_id self.
Proof.
  intros Hv. unfold lookup_id.
  destruct (dict_get (token_to_id self) token) as [tid|] eqn:Ht;
    [|reflexivity].
  assert (in_vocab self token = true)
    by (apply (in_vocab_get vocab_data self Hinit); eauto).
  congruence.
Qed.

Lemma lookup_id_unk : lookup_id self unk_token = unk_token_id self.
Proof.
  destruct (@__init___Ok vocab_data self Hinit) as (_ & _ & _ & _ & _ & H & _).
  unfold lookup_id. rewrite H. reflexivity.
Qed.

Lemma in_vocab_unk : in_vocab self unk_token = true.
Proof.
  apply (required_in_vocab vocab_data self Hinit). simpl. auto.
Qed.

(** The ids of a token sequence decode to the surfaces of its tokens other
    than the pad token. *)
Lemma kept_tokens_surface (tokens : list str) :
  kept_tokens self (map (lookup_id self) tokens)
  = map (surface self)
        (filter (fun token => negb (eqb token pad_token)) tokens).
Proof.
  unfold kept_tokens. induction tokens as [|token tokens IH]; simpl;
    [reflexivity|].
  destruct (eqb token pad_token) eqn:Hpad; simpl.
  - apply eqb_eq in Hpad. subst token.
    rewrite (lookup_id_pad vocab_data self Hinit), eqb_refl. simpl. exact IH.
  - apply eqb_neq in Hpad. unfold surface at 1.
    destruct (in_vocab self token) eqn:Hv.
    + rewrite (lookup_id_not_pad vocab_data self Hinit Hunique token Hv Hpad).
      simpl.
      rewrite (lookup_token_lookup_id vocab_data self Hinit Hunique token Hv).
      f_equal. exact IH.
    + rewrite (lookup_id_unknown token Hv), <- lookup_id_unk.
      rewrite (lookup_id_not_pad vocab_data self Hinit Hunique unk_token
                 in_vocab_unk);
        [|apply eqb_neq; reflexivity].
      simpl.
      rewrite (lookup_token_lookup_id vocab_data self Hinit Hunique unk_token
                 in_vocab_unk).
      f_equal. exact IH.
Qed.

End TablesUnique.

(** X4 (the two tables). For a constructed tokenizer, from token to id and
    back is the identity on the vocabulary exactly when no two tokens share
    an id. *)
Theorem unique_ids_round_trip (vocab_data : list (str * Z))
    (self : CustomTokenizer) :
  __init__ vocab_data = Ok self ->
  (unique_ids self = true
   <-> forall token,
         in_vocab self token = true ->
         lookup_token self (lookup_id self token) = token).
Proof.
  intros Hinit. split.
  - intros Hunique token Hv.
    apply (lookup_token_lookup_id vocab_data self Hinit Hunique token Hv).
  - apply (round_trip_unique_ids vocab_data self Hinit).
Qed.

Lemma unique_ids_round_trip_witness :
  exists self,
    __init__ smoke_vocab = Ok self
    /\ lookup_token self (lookup_id self (lit ">>")) = lit ">>".
Proof.
  eexists. split; [reflexivity|].
  match goal with
  | |- lookup_token ?self _ = _ =>
      apply (proj1 (unique_ids_round_trip smoke_vocab self eq_refl))
  end; reflexivity.
Defined.

(** X5 ([decode] after [encode]). For a constructed tokenizer in which no
    two tokens share an id, decoding the ids of a text gives the spaced
    join of the tokens that [encode] emitted, without the pad tokens and
    with ["[UNK]"] in the place of every token that is not in the
    vocabulary. *)
Theorem decode_encode {U : UnicodeTable} (vocab_data : list (str * Z))
    (self : CustomTokenizer) (text : str) :
  __init__ vocab_data = Ok self ->
  unique_ids self = true ->
  decode self (encode self text)
  = Ok (join_spaced
          (map (surface self)
               (filter (fun token => negb (eqb token pad_token))
                       (tokens_of self text)))).
Proof.
  intros Hinit Hunique.
  rewrite encode_encode_spec, decode_join. unfold encode_spec.
  rewrite (kept_tokens_surface vocab_data self Hinit Hunique). reflexivity.
Qed.

Lemma decode_encode_witness :
  exists self,
    __init__ smoke_vocab = Ok self
    /\ decode (U := ascii_only) self
              (encode (U := ascii_only) self (lit "[PAD] C>O [PAD] Cl 7"))
       = Ok (lit "C>O [UNK] [UNK]").
Proof.
  eexists. split; [reflexivity|].
  match goal with
  | |- decode ?self _ = _ =>
      rewrite (@decode_encode ascii_only smoke_vocab self
                 (lit "[PAD] C>O [PAD] Cl 7") eq_refl eq_refl)
  end.
  reflexivity.
Defined.

(** ** Pieces *)

Lemma split_from_pieces (s : str) :
  forall cur piece,
    no_space cur = true ->
    In piece (split_from cur s) ->
    piece <> [] /\ no_space piece = true.
Proof.
  induction s as [|c s IH]; intros cur piece Hcur; simpl.
  - destruct cur; simpl; [intros []|]. intros [<-|[]].
    split; [discriminate | exact Hcur].
  - destruct (isspace c) eqn:Hc.
    + rewrite in_app_iff. intros [Hin|Hin].
      * destruct cur; simpl in Hin; [destruct Hin|].
        destruct Hin as [<-|[]]. split; [discriminate | exact Hcur].
      * apply (IH [] piece eq_refl Hin).
    + apply IH. unfold no_space in *. rewrite forallb_app, Hcur. simpl.
      rewrite Hc. reflexivity.
Qed.

(** The pieces of [split] are not empty and contain no whitespace. *)
Lemma split_pieces (s piece : str) :
  In piece (split s) -> piece <> [] /\ no_space piece = true.
Proof. apply split_from_pieces. reflexivity. Qed.

Lemma split_from_app (w : char) (b : str) :
  isspace w = true ->
  forall a cur,
    split_from cur (a ++ w :: b) = split_from cur a ++ split_from [] b.
Proof.
  intros Hw. induction a as [|c a IH]; intros cur; simpl.
  - rewrite Hw. reflexivity.
  - destruct (isspace c).
    + rewrite IH. apply app_assoc.
    + apply IH.
Qed.

Lemma split_spaces (s : str) : forallb isspace s = true -> split s = [].
Proof.
  unfold split. induction s as [|c s IH]; simpl; [reflexivity|].
  intros H. apply andb_true_iff in H. destruct H as [Hc Hs].
  rewrite Hc. simpl. apply IH. exact Hs.
Qed.

Lemma split_from_no_space (s : str) :
  no_space s = true -> forall cur, split_from cur s = flush (cur ++ s).
Proof.
  unfold no_space. induction s as [|c s IH]; intros H cur; simpl.
  - rewrite app_nil_r. reflexivity.
  - simpl in H. apply andb_true_iff in H. destruct H as [Hc Hs].
    apply negb_true_iff in Hc. rewrite Hc, (IH Hs), <- app_assoc.
    reflexivity.
Qed.

(** A non-empty string without whitespace is its own single piece. *)
Lemma split_single (s : str) :
  s <> [] -> no_space s = true -> split s = [s].
Proof.
  intros Hne Hs. unfold split. rewrite (split_from_no_space s Hs). simpl.
  destruct s; [contradiction | reflexivity].
Qed.

Lemma chomp_no_space (s : str) : no_space s = true -> chomp s = s.
Proof.
  intros Hs. destruct (chomp_cases s) as [H|H]; [symmetry; exact H|].
  rewrite H in Hs. unfold no_space in Hs. rewrite forallb_app in Hs.
  apply andb_true_iff in Hs. destruct Hs as [_ Hs]. discriminate Hs.
Qed.

Section EncodePieces.

Context {U : UnicodeTable}.

(** X6 ([encode], empty input and composition). A text of whitespace only,
    in particular the empty text, has no ids; and the ids of two texts
    joined by a whitespace character are the ids of the first followed by
    the ids of the second. *)
Theorem encode_whitespace :
  (forall self, encode self [] = [])
  /\ (forall self text, forallb isspace text = true -> encode self text = [])
  /\ (forall self a w b,
        isspace w = true ->
        encode self (a ++ w :: b) = encode self a ++ encode self b).
Proof.
  split; [reflexivity|]. split.
  - intros self text H. rewrite encode_encode_spec. unfold encode_spec.
    rewrite (split_spaces text H). reflexivity.
  - intros self a w b Hw. rewrite !encode_encode_spec. unfold encode_spec.
    unfold split. rewrite (split_from_app w b Hw).
    rewrite flat_map_app, map_app. reflexivity.
Qed.

(** X7 ([encode], reaction classes). On the pieces that [encode] tests, a
    reaction class is exactly a string of one or more non-empty groups of
    digits separated by single dots: a piece has no line feed, so the
    lenient end of the pattern is never reached from [encode]. *)
Theorem encode_reaction_class_strict (text piece : str) :
  In piece (split (strip text)) ->
  piece <> [] /\ no_space piece = true
  /\ is_reaction_class piece = dotted_digits piece.
Proof.
  intros Hin. apply split_pieces in Hin. destruct Hin as [Hne Hs].
  split; [exact Hne|]. split; [exact Hs|].
  rewrite is_reaction_class_chomp, (chomp_no_space piece Hs). reflexivity.
Qed.

(** X8 ([encode], one token). A non-empty text without whitespace that is a
    reaction class or a vocabulary entry is encoded as the single id that
    [get_special_token_id] gives it. *)
Theorem encode_single_token (self : CustomTokenizer) (token : str) :
  token <> [] -> no_space token = true ->
  is_reaction_class token = true \/ in_vocab self token = true ->
  encode self token = [get_special_token_id self token].
Proof.
  intros Hne Hs Hkind. rewrite encode_encode_spec. unfold encode_spec.
  rewrite (split_single token Hne Hs). simpl. rewrite app_nil_r.
  unfold classify. fold (in_vocab self token).
  destruct (is_reaction_class token); [reflexivity|].
  destruct Hkind as [Hrc|Hv]; [discriminate|]. rewrite Hv. reflexivity.
Qed.

End EncodePieces.

Lemma encode_whitespace_witness :
  encode (U := ascii_only) (Build_CustomTokenizer [] [] [] 0 0 0 0 0)
         (lit "   ") = []
  /\ encode (U := ascii_only) (Build_CustomTokenizer [] [] [] 0 0 0 0 0)
            (lit "C 7")
     = encode (U := ascii_only) (Build_CustomTokenizer [] [] [] 0 0 0 0 0)
              (lit "C")
       ++ encode (U := ascii_only) (Build_CustomTokenizer [] [] [] 0 0 0 0 0)
                 (lit "7").
Proof.
  pose proof (@encode_whitespace ascii_only) as (_ & H2 & H3).
  split.
  - apply H2. reflexivity.
  - apply (H3 _ (lit "C") (ch " ") (lit "7")). reflexivity.
Defined.

Lemma encode_reaction_class_strict_witness :
  is_reaction_class (U := ascii_only) (lit "2.12.13")
  = dotted_digits (U := ascii_only) (lit "2.12.13").
Proof.
  apply (@encode_reaction_class_strict ascii_only (lit " CCO 2.12.13 ")).
  vm_compute. auto.
Defined.

Lemma encode_single_token_witness :
  exists self,
    __init__ smoke_vocab = Ok self
    /\ encode (U := ascii_only) self (lit ">>")
       = [get_special_token_id self (lit ">>")].
Proof.
  eexists. split; [reflexivity|].
  apply (@encode_single_token ascii_only);
    [discriminate | reflexivity | right; reflexivity].
Defined.

(** ** Padding *)

Section DecodePad.

Context {U : UnicodeTable}.

(** X9 ([decode], padding). Pad ids are dropped wherever they stand: a pad
    id inserted anywhere, and any number of pad ids appended, do not change
    the decoded text. *)
Theorem decode_ignores_pad (self : CustomTokenizer) :
  (forall ids1 ids2,
      decode self (ids1 ++ pad_token_id self :: ids2)
      = decode self (ids1 ++ ids2))
  /\ (forall ids n,
        decode self (ids ++ repeat (pad_token_id self) n) = decode self ids).
Proof.
  assert (Hins : forall ids1 ids2,
             decode self (ids1 ++ pad_token_id self :: ids2)
             = decode self (ids1 ++ ids2)).
  { intros ids1 ids2. rewrite !decode_join. unfold kept_tokens.
    rewrite !filter_app. simpl. rewrite eqb_refl. reflexivity. }
  split; [exact Hins|].
  intros ids n. induction n as [|n IH]; simpl.
  - rewrite app_nil_r. reflexivity.
  - rewrite Hins. exact IH.
Qed.

End DecodePad.

(** ** The scan of [findall] *)

Section Scan.

Context {U : UnicodeTable}.

Lemma rep_shift (step : cursor -> list cursor) (k : nat) :
  (forall c, step (shift k c) = map (shift k) (step c)) ->
  forall hi lo c,
    rep step lo hi (shift k c) = map (shift k) (rep step lo hi c).
Proof.
  intros Hstep. induction hi as [|hi IH]; intros lo c; simpl.
  - destruct lo; reflexivity.
  - rewrite Hstep, map_app, flat_map_concat_map, map_map.
    rewrite flat_map_concat_map, concat_map, map_map.
    f_equal; [|destruct lo; reflexivity].
    f_equal. apply map_ext. intros c'. apply IH.
Qed.

(** A pattern without [^] matches in the same way wherever the text
    stands in a longer string. *)
Lemma run_shift (k : nat) (r : regex) :
  bol_free r = true ->
  forall c, run r (shift k c) = map (shift k) (run r c).
Proof.
  induction r as [s|neg items|r1 IH1 r2 IH2|r1 IH1 r2 IH2|lo hi r IH|r IH| |];
    simpl; intros Hr c.
  - destruct (strip_prefix s (rest c)); simpl; [|reflexivity].
    unfold shift. simpl. rewrite Nat.add_assoc. reflexivity.
  - destruct (rest c) as [|x s']; [reflexivity|].
    destruct (in_class neg items x); [|reflexivity].
    unfold shift. simpl. rewrite Nat.add_succ_r. reflexivity.
  - apply andb_true_iff in Hr. destruct Hr as [H1 H2].
    rewrite (IH1 H1), flat_map_concat_map, map_map.
    rewrite flat_map_concat_map, concat_map, map_map.
    f_equal. apply map_ext. intros c'. apply (IH2 H2).
  - apply andb_true_iff in Hr. destruct Hr as [H1 H2].
    rewrite (IH1 H1), (IH2 H2), map_app. reflexivity.
  - destruct hi as [h|]; apply rep_shift; apply (IH Hr).
  - apply (IH Hr).
  - discriminate Hr.
  - destruct (rest c) as [|x [|y s']]; [reflexivity | | reflexivity].
    destruct (eqb x nl); reflexivity.
Qed.

Lemma findall_fuel_shift (k : nat) (r : regex) :
  bol_free r = true ->
  forall fuel c, findall_fuel fuel r (shift k c) = findall_fuel fuel r c.
Proof.
  intros Hr. induction fuel as [|fuel IH]; intros c; simpl; [reflexivity|].
  rewrite (run_shift k r Hr).
  assert (Hskip : match rest c with
                  | [] => []
                  | _ :: s' =>
                      findall_fuel fuel r (Cursor (S (k + pos c)) s')
                  end
                  = match rest c with
                    | [] => []
                    | _ :: s' => findall_fuel fuel r (Cursor (S (pos c)) s')
                    end).
  { destruct (rest c) as [|x s']; [reflexivity|].
    rewrite <- (IH (Cursor (S (pos c)) s')). unfold shift. simpl.
    rewrite Nat.add_succ_r. reflexivity. }
  rewrite Hskip. destruct (run r c) as [|c' l]; [reflexivity|]. simpl.
  replace (k + pos c' - (k + pos c)) with (pos c' - pos c) by lia.
  replace (k + pos c' =? k + pos c) with (pos c' =? pos c).
  - destruct (pos c' =? pos c); [reflexivity|]. f_equal. apply IH.
  - destruct (Nat.eqb_spec (pos c') (pos c)) as [->|Hne].
    + symmetry. apply Nat.eqb_refl.
    + symmetry. apply Nat.eqb_neq. lia.
Qed.

Lemma findall_fuel_first (fuel : nat) (r : regex) (c c' : cursor)
    (l : list cursor) :
  run r c = c' :: l ->
  pos c' <> pos c ->
  findall_fuel (S fuel) r c
  = firstn (pos c' - pos c) (rest c) :: findall_fuel fuel r c'.
Proof.
  intros Hrun Hpos. simpl. rewrite Hrun.
  apply Nat.eqb_neq in Hpos. rewrite Hpos. reflexivity.
Qed.

(** [findall] on a text that starts with a non-empty first match: the
    match, then the matches of the rest. *)
Lemma findall_match (r : regex) (w s : str) :
  bol_free r = true ->
  w <> [] ->
  hd_error (run r (start (w ++ s))) = Some (Cursor (length w) s) ->
  findall r (w ++ s) = w :: findall r s.
Proof.
  intros Hr Hw Hrun. unfold findall.
  destruct (run r (start (w ++ s))) as [|c' l] eqn:Hl; [discriminate|].
  injection Hrun as ->.
  assert (Hlen : length w <> 0) by (destruct w; [contradiction | discriminate]).
  rewrite (findall_fuel_first (length (w ++ s)) r (start (w ++ s))
             (Cursor (length w) s) l Hl Hlen).
  cbn [pos rest start].
  rewrite Nat.sub_0_r, firstn_app, Nat.sub_diag, firstn_all.
  cbn [firstn]. rewrite app_nil_r. f_equal.
  rewrite (@findall_fuel_enough _ r (length (w ++ s)) (S (length s)));
    [| cbn [rest]; rewrite length_app; lia | cbn [rest]; lia].
  replace (Cursor (length w) s) with (shift (length w) (start s))
    by (unfold shift, start; simpl; rewrite Nat.add_0_r; reflexivity).
  apply (findall_fuel_shift (length w) r Hr).
Qed.

(** [findall] on a text at whose start nothing matches: the matches of the
    text without its first character. *)
Lemma findall_skip (r : regex) (x : char) (s : str) :
  bol_free r = true ->
  run r (start (x :: s)) = [] ->
  findall r (x :: s) = findall r s.
Proof.
  intros Hr Hrun. unfold findall.
  assert (Hstep : findall_fuel (S (length (x :: s))) r (start (x :: s))
                  = findall_fuel (length (x :: s)) r (shift 1 (start s))).
  { simpl. rewrite Hrun. reflexivity. }
  rewrite Hstep, (findall_fuel_shift 1 r Hr).
  apply findall_fuel_enough; simpl; lia.
Qed.

Lemma bol_free_SMILES_REGEX : bol_free SMILES_REGEX = true.
Proof. reflexivity. Qed.

Lemma smiles_token_nonempty (w : str) : smiles_token w = true -> w <> [].
Proof. intros H ->. discriminate H. Qed.

(** One step of the segmenter: at the start of a non-empty text either
    nothing matches and the first character is dropped, or the first match
    is a token and the scan goes on behind it. *)
Lemma tokenize_smiles_step (x : char) (s : str) :
  (run SMILES_REGEX (start (x :: s)) = []
   /\ tokenize_smiles (x :: s) = tokenize_smiles s)
  \/ (exists w s',
         x :: s = w ++ s' /\ smiles_token w = true
         /\ hd_error (run SMILES_REGEX (start (x :: s)))
            = Some (Cursor (length w) s')
         /\ tokenize_smiles (x :: s) = w :: tokenize_smiles s').
Proof.
  destruct (run SMILES_REGEX (start (x :: s))) as [|c' l] eqn:Hrun.
  - left. split; [reflexivity|].
    apply (findall_skip SMILES_REGEX x s bol_free_SMILES_REGEX Hrun).
  - right.
    assert (Hin : In c' (run SMILES_REGEX (start (x :: s))))
      by (rewrite Hrun; left; reflexivity).
    apply run_den, den_SMILES_REGEX in Hin.
    destruct Hin as (w & [Hw1 Hw2] & Htok).
    destruct c' as [p s']. cbn [start rest pos] in Hw1, Hw2.
    rewrite Nat.add_0_l in Hw2. subst p.
    exists w, s'. split; [exact Hw1|]. split; [exact Htok|].
    split; [reflexivity|]. unfold tokenize_smiles. rewrite Hw1.
    apply (findall_match SMILES_REGEX w s' bol_free_SMILES_REGEX).
    + apply smiles_token_nonempty. exact Htok.
    + rewrite <- Hw1, Hrun. reflexivity.
Qed.

End Scan.

(** ** What the segmenter keeps and what it drops *)

Lemma cut_skip (x : char) (s : str) (ws : list str) :
  cut s ws -> cut (x :: s) ws.
Proof.
  intros H. destruct H as [gap|gap w s ws H].
  - apply cut_end.
  - apply (@cut_token (x :: gap) w s ws H).
Qed.

Lemma cut_length (s : str) (ws : list str) :
  cut s ws -> length (concat ws) <= length s.
Proof.
  induction 1 as [gap|gap w s ws _ IH]; simpl; [lia|].
  rewrite !length_app. lia.
Qed.

Lemma concat_nonempty_length (ws : list str) :
  Forall (fun w => w <> []) ws -> length ws <= length (concat ws).
Proof.
  induction 1 as [|w ws Hw _ IH]; simpl; [lia|].
  rewrite length_app. destruct w; [contradiction|]. simpl. lia.
Qed.

Lemma run_Lit_mismatch (y x : char) (l s : str) (p : nat) :
  x <> y -> forall U : UnicodeTable, run (Lit (y :: l)) (Cursor p (x :: s)) = [].
Proof.
  intros Hxy U. simpl. destruct (eqb y x) eqn:Hyx; [|reflexivity].
  apply eqb_eq in Hyx. congruence.
Qed.

Lemma mem_false {A} {E : Eqb A} {L : EqbLaws A} (x y : A) (l : list A) :
  mem x l = false -> In y l -> x <> y.
Proof.
  intros Hm Hin ->. apply mem_In in Hin. congruence.
Qed.

Section SegmenterSteps.

Context {U : UnicodeTable}.

(** At a character that starts no longer token only the single-character
    alternative can match. *)
Lemma run_SMILES_REGEX_single (x : char) (s : str) (p : nat) :
  starts_longer x = false ->
  run SMILES_REGEX (Cursor p (x :: s))
  = if single_char x then [Cursor (S p) s] else [].
Proof.
  intros Hx.
  assert (Hne : forall y, In y (lit ">[BCSNLMZFHA") -> x <> y)
    by (intros y; apply (mem_false x y _ Hx)).
  assert (HG : forall r c, run (Group r) c = run r c) by reflexivity.
  assert (HA : forall r1 r2 c, run (Alt r1 r2) c = run r1 c ++ run r2 c)
    by reflexivity.
  assert (HC : forall r1 r2 c,
             run (Cat r1 r2) c = flat_map (run r2) (run r1 c))
    by reflexivity.
  unfold SMILES_REGEX, bracket_atom.
  cbn [alts elements map app lit list_ascii_of_string].
  rewrite HG, !HA, HC.
  rewrite !(fun y Hy l => run_Lit_mismatch y x l s p (Hne y Hy) U)
    by (simpl; auto 20).
  cbn [flat_map app run rest pos]. rewrite in_class_single_char.
  destruct (single_char x); reflexivity.
Qed.

Lemma run_SMILES_REGEX_arrow (s : str) :
  hd_error (run SMILES_REGEX (start (lit ">>" ++ s)))
  = Some (Cursor (length (lit ">>")) s).
Proof. reflexivity. Qed.

Lemma run_SMILES_REGEX_element (e : string) (s : str) :
  In e elements ->
  hd_error (run SMILES_REGEX (start (lit e ++ s)))
  = Some (Cursor (length (lit e)) s).
Proof.
  intros He. unfold elements in He. simpl in He.
  repeat (destruct He as [<-|He]; [reflexivity|]). destruct He.
Qed.

End SegmenterSteps.

Section BracketAtom.

Context {U : UnicodeTable}.

(** A greedy repetition of a character class first takes every character
    of a run that ends where the class ends. *)
Lemma rep_class_head (negated : bool) (items : list item) (t : str) :
  match t with
  | [] => true
  | y :: _ => negb (in_class negated items y)
  end = true ->
  forall body lo hi p,
    forallb (in_class negated items) body = true ->
    lo <= length body <= hi ->
    exists l,
      rep (run (Class negated items)) lo hi (Cursor p (body ++ t))
      = Cursor (p + length body) t :: l.
Proof.
  intros Ht.
  assert (Hstop : forall p, run (Class negated items) (Cursor p t) = []).
  { intros p. simpl. destruct t as [|y t']; [reflexivity|].
    apply negb_true_iff in Ht. rewrite Ht. reflexivity. }
  assert (HS : forall step lo hi c,
             rep step lo (S hi) c
             = flat_map (rep step (Nat.pred lo) hi) (step c)
               ++ match lo with 0 => [c] | S _ => [] end)
    by reflexivity.
  induction body as [|x body IH]; intros lo hi p Hbody Hlen;
    cbn [app length forallb] in *.
  - assert (lo = 0) by lia. subst lo. rewrite Nat.add_0_r.
    destruct hi as [|hi].
    + exists []. reflexivity.
    + rewrite HS, Hstop. exists []. reflexivity.
  - apply andb_true_iff in Hbody. destruct Hbody as [Hx Hbody].
    destruct hi as [|hi]; [lia|]. rewrite HS.
    assert (Hrun : run (Class negated items) (Cursor p (x :: body ++ t))
                   = [Cursor (S p) (body ++ t)])
      by (simpl; rewrite Hx; reflexivity).
    rewrite Hrun. cbn [flat_map].
    destruct (IH (Nat.pred lo) hi (S p) Hbody) as (l & Hl); [lia|].
    rewrite Hl, Nat.add_succ_r. cbn [app Nat.add]. eexists. reflexivity.
Qed.

Lemma hd_error_app {A} (l1 l2 : list A) (x : A) :
  hd_error l1 = Some x -> hd_error (l1 ++ l2) = Some x.
Proof. destruct l1; simpl; [discriminate | auto]. Qed.

(** At a bracket group the pattern matches the whole group. *)
Lemma run_SMILES_REGEX_bracket (body s : str) :
  1 <= length body <= 10 ->
  forallb (fun c => negb (eqb c (ch "[") || eqb c (ch "]"))) body = true ->
  hd_error (run SMILES_REGEX (start (lit "[" ++ body ++ lit "]" ++ s)))
  = Some (Cursor (length (lit "[" ++ body ++ lit "]")) s).
Proof.
  intros Hlen Hbody.
  rewrite <- (forallb_ext _ _ body in_class_not_bracket) in Hbody.
  destruct (rep_class_head true [One (ch "["); One (ch "]")] (lit "]" ++ s)
              eq_refl body 1 10 1 Hbody Hlen) as (l & Hrep).
  assert (HG : forall r c, run (Group r) c = run r c) by reflexivity.
  assert (HA : forall r1 r2 c, run (Alt r1 r2) c = run r1 c ++ run r2 c)
    by reflexivity.
  assert (HC : forall r1 r2 c,
             run (Cat r1 r2) c = flat_map (run r2) (run r1 c))
    by reflexivity.
  assert (HR : forall r c, run (Rep 1 (Some 10) r) c = rep (run r) 1 10 c)
    by reflexivity.
  unfold SMILES_REGEX. cbn [alts elements map app].
  rewrite HG, HA, HA. unfold bracket_atom. rewrite HC.
  change (run (Lit (lit ">>")) (start (lit "[" ++ body ++ lit "]" ++ s)))
    with (@nil cursor).
  change (run (Lit (lit "[")) (start (lit "[" ++ body ++ lit "]" ++ s)))
    with [Cursor 1 (body ++ lit "]" ++ s)].
  cbn [flat_map app]. rewrite HC, HR, Hrep. cbn [flat_map].
  change (run (Lit (lit "]")) (Cursor (1 + length body) (lit "]" ++ s)))
    with [Cursor (1 + length body + 1) s].
  cbn [app hd_error]. f_equal. f_equal.
  cbn [lit map list_ascii_of_string app length]. rewrite length_app.
  simpl. lia.
Qed.

End BracketAtom.

Section SegmenterTheorems.

Context {U : UnicodeTable}.

Lemma tokenize_smiles_nil : tokenize_smiles [] = [].
Proof. reflexivity. Qed.

Lemma tokenize_smiles_first (w s : str) :
  w <> [] ->
  hd_error (run SMILES_REGEX (start (w ++ s))) = Some (Cursor (length w) s) ->
  tokenize_smiles (w ++ s) = w :: tokenize_smiles s.
Proof. apply (findall_match SMILES_REGEX w s bol_free_SMILES_REGEX). Qed.

(** X10 ([tokenize_smiles], longer tokens first). Where the text goes on
    with the marker [>>], a two-letter element of the pattern, or a bracket
    group of one to ten characters that are not brackets, that is the next
    token, and the segmentation goes on behind it. *)
Theorem tokenize_smiles_longer_tokens :
  (forall s, tokenize_smiles (lit ">>" ++ s) = lit ">>" :: tokenize_smiles s)
  /\ (forall e s,
        In e elements ->
        tokenize_smiles (lit e ++ s) = lit e :: tokenize_smiles s)
  /\ (forall body s,
        1 <= length body <= 10 ->
        forallb (fun c => negb (eqb c (ch "[") || eqb c (ch "]"))) body
        = true ->
        tokenize_smiles (lit "[" ++ body ++ lit "]" ++ s)
        = (lit "[" ++ body ++ lit "]") :: tokenize_smiles s).
Proof.
  split.
  { intros s. apply tokenize_smiles_first; [discriminate|].
    apply run_SMILES_REGEX_arrow. }
  split.
  { intros e s He. apply tokenize_smiles_first.
    - unfold elements in He. simpl in He.
      repeat (destruct He as [<-|He]; [discriminate|]). destruct He.
    - apply run_SMILES_REGEX_element. exact He. }
  intros body s Hlen Hbody.
  replace (lit "[" ++ body ++ lit "]" ++ s)
    with ((lit "[" ++ body ++ lit "]") ++ s)
    by (rewrite <- !app_assoc; reflexivity).
  apply tokenize_smiles_first; [discriminate|].
  rewrite <- !app_assoc.
  apply (run_SMILES_REGEX_bracket body s Hlen Hbody).
Qed.

(** X11 ([tokenize_smiles], single and dropped characters). A character
    that cannot start a longer token is emitted as a token of its own when
    it is in the class of the last alternative, and is dropped otherwise;
    a [>] not followed by [>] is emitted. *)
Theorem tokenize_smiles_single_characters :
  (forall x s,
      starts_longer x = false -> single_char x = true ->
      tokenize_smiles (x :: s) = [x] :: tokenize_smiles s)
  /\ (forall x s,
        starts_longer x = false -> single_char x = false ->
        tokenize_smiles (x :: s) = tokenize_smiles s)
  /\ (forall s,
        startswith s (ch ">") = false ->
        tokenize_smiles (ch ">" :: s) = [ch ">"] :: tokenize_smiles s).
Proof.
  split.
  { intros x s Hx Hc. apply (tokenize_smiles_first [x] s); [discriminate|].
    unfold start. cbn [app]. rewrite (run_SMILES_REGEX_single x s 0 Hx), Hc.
    reflexivity. }
  split.
  { intros x s Hx Hc.
    apply (findall_skip SMILES_REGEX x s bol_free_SMILES_REGEX).
    unfold start. rewrite (run_SMILES_REGEX_single x s 0 Hx), Hc.
    reflexivity. }
  intros s Hs. apply (tokenize_smiles_first [ch ">"] s); [discriminate|].
  apply (run_SMILES_REGEX_gt 0 s Hs).
Qed.

(** The tokens lie in the text in order, without overlap. *)
Lemma tokenize_smiles_cut_bounded (n : nat) :
  forall s, length s <= n -> cut s (tokenize_smiles s).
Proof.
  induction n as [|n IH]; intros s Hn.
  - destruct s; [apply cut_end | simpl in Hn; lia].
  - destruct s as [|x s]; [apply cut_end|].
    destruct (tokenize_smiles_step x s)
      as [[_ ->]|(w & s' & Hs & Htok & _ & ->)].
    + apply cut_skip. apply IH. simpl in Hn. lia.
    + rewrite Hs. apply (@cut_token [] w s').
      apply IH. apply smiles_token_nonempty in Htok.
      apply (f_equal (@length char)) in Hs. rewrite length_app in Hs.
      simpl in Hs, Hn. destruct w; [contradiction|]. simpl in Hs. lia.
Qed.

Lemma tokenize_smiles_length (s : str) :
  length (tokenize_smiles s) <= length (concat (tokenize_smiles s))
  /\ length (concat (tokenize_smiles s)) <= length s.
Proof.
  split.
  - apply concat_nonempty_length.
    apply Forall_forall. intros w Hw. apply smiles_token_nonempty.
    apply (tokenize_smiles_smiles_token s w Hw).
  - apply cut_length. apply (tokenize_smiles_cut_bounded (length s)). lia.
Qed.

(** X12 ([tokenize_smiles], nothing invented). The tokens are pieces of the
    text, in order and without overlap; so they have together at most as
    many characters as the text, and there are at most as many of them. *)
Theorem tokenize_smiles_cut (s : str) :
  cut s (tokenize_smiles s)
  /\ length (concat (tokenize_smiles s)) <= length s
  /\ length (tokenize_smiles s) <= length s.
Proof.
  split; [apply (tokenize_smiles_cut_bounded (length s)); lia|].
  destruct (tokenize_smiles_length s) as [H1 H2]. split; [exact H2 | lia].
Qed.

Lemma tokenize_smiles_lossless_bounded (n : nat) :
  forall s,
    length s <= n ->
    forallb single_char s = true ->
    concat (tokenize_smiles s) = s.
Proof.
  induction n as [|n IH]; intros s Hn Hs.
  - destruct s; [reflexivity | simpl in Hn; lia].
  - destruct s as [|x s]; [reflexivity|].
    destruct (tokenize_smiles_step x s)
      as [[Hrun _]|(w & s' & Hws & Htok & _ & ->)].
    + exfalso. simpl in Hs. apply andb_true_iff in Hs. destruct Hs as [Hx _].
      assert (Hin : In (Cursor 1 s) (run SMILES_REGEX (start (x :: s)))).
      { apply run_den. unfold SMILES_REGEX. cbn [den]. apply den_alts.
        exists (Class false smiles_chars). split.
        - right. right. apply in_or_app. right. left. reflexivity.
        - cbn [den]. exists x. rewrite in_class_single_char.
          split; [exact Hx|]. split; reflexivity. }
      rewrite Hrun in Hin. destruct Hin.
    + simpl. rewrite Hws. f_equal.
      apply smiles_token_nonempty in Htok.
      rewrite Hws, forallb_app in Hs. apply andb_true_iff in Hs.
      apply IH; [|tauto].
      apply (f_equal (@length char)) in Hws. rewrite length_app in Hws.
      simpl in Hws, Hn. destruct w; [contradiction|]. simpl in Hws. lia.
Qed.

(** X13 ([tokenize_smiles], no loss). A text made only of characters of
    the single-character class is segmented without loss: its tokens
    concatenated are the text. *)
Theorem tokenize_smiles_lossless (s : str) :
  forallb single_char s = true -> concat (tokenize_smiles s) = s.
Proof. apply (tokenize_smiles_lossless_bounded (length s)). lia. Qed.

End SegmenterTheorems.

Lemma tokenize_smiles_longer_tokens_witness :
  tokenize_smiles (U := ascii_only) (lit "Cl" ++ lit "C")
  = lit "Cl" :: tokenize_smiles (U := ascii_only) (lit "C")
  /\ tokenize_smiles (U := ascii_only) (lit "[" ++ lit "N+" ++ lit "]" ++ lit "C")
     = (lit "[" ++ lit "N+" ++ lit "]")
       :: tokenize_smiles (U := ascii_only) (lit "C").
Proof.
  pose proof (@tokenize_smiles_longer_tokens ascii_only) as (_ & H2 & H3).
  split.
  - apply H2. simpl. auto.
  - apply H3; [simpl; lia | reflexivity].
Defined.

Lemma tokenize_smiles_single_characters_witness :
  tokenize_smiles (U := ascii_only) (ch "O" :: lit "CC")
  = [ch "O"] :: tokenize_smiles (U := ascii_only) (lit "CC")
  /\ tokenize_smiles (U := ascii_only) (ch ":" :: lit "CC")
     = tokenize_smiles (U := ascii_only) (lit "CC")
  /\ tokenize_smiles (U := ascii_only) (ch ">" :: lit "CC")
     = [ch ">"] :: tokenize_smiles (U := ascii_only) (lit "CC").
Proof.
  pose proof (@tokenize_smiles_single_characters ascii_only) as (H1 & H2 & H3).
  split; [apply H1; reflexivity|].
  split; [apply H2; reflexivity | apply H3; reflexivity].
Defined.

Lemma tokenize_smiles_lossless_witness :
  concat (tokenize_smiles (U := ascii_only) (lit "CC(=O)Oc1ccccc1"))
  = lit "CC(=O)Oc1ccccc1".
Proof.
  apply (@tokenize_smiles_lossless ascii_only). reflexivity.
Defined.

(** ** The size of the result of [encode] *)

Lemma split_from_length (s : str) :
  forall cur, length (concat (split_from cur s)) <= length cur + length s.
Proof.
  induction s as [|c s IH]; intros cur; simpl.
  - destruct cur; simpl; [lia|]. rewrite app_nil_r. simpl. lia.
  - destruct (isspace c).
    + rewrite concat_app, length_app. specialize (IH []). simpl in IH.
      destruct cur; simpl; [lia|]. rewrite app_nil_r. simpl. lia.
    + specialize (IH (cur ++ [c])). rewrite length_app in IH. simpl in IH.
      lia.
Qed.

Lemma flat_map_length_le {A} (f : list A -> list (list A))
    (l : list (list A)) :
  (forall p, In p l -> length (f p) <= length p) ->
  length (flat_map f l) <= length (concat l).
Proof.
  induction l as [|p l IH]; intros Hf; simpl; [lia|].
  rewrite !length_app.
  pose proof (Hf p (or_introl eq_refl)).
  assert (length (flat_map f l) <= length (concat l))
    by (apply IH; intros q Hq; apply Hf; right; exact Hq).
  lia.
Qed.

Section EncodeLength.

Context {U : UnicodeTable}.

Lemma classify_length (self : CustomTokenizer) (piece : str) :
  piece <> [] -> length (classify self piece) <= length piece.
Proof.
  intros Hne. unfold classify.
  assert (1 <= length piece) by (destruct piece; [contradiction | simpl; lia]).
  destruct (is_reaction_class piece); [simpl; lia|].
  destruct (mem piece (vocab self)); [simpl; lia|].
  destruct (tokenize_smiles_length piece). lia.
Qed.

(** X14 ([encode], size). [encode] returns at most as many ids as the text
    has characters. *)
Theorem encode_length (self : CustomTokenizer) (text : str) :
  length (encode self text) <= length text.
Proof.
  rewrite encode_encode_spec. unfold encode_spec. rewrite length_map.
  etransitivity; [apply flat_map_length_le|].
  - intros piece Hin. apply classify_length.
    apply (split_pieces text piece Hin).
  - apply (split_from_length text []).
Qed.

End EncodeLength.

(** ** What the greedy tokenizer returns *)

Lemma firstn_slice (text : str) (i j : nat) :
  i <= j -> firstn i text ++ slice text i j = firstn j text.
Proof.
  intros Hij. unfold slice. rewrite firstn_skipn_comm.
  replace (i + (j - i)) with j by lia.
  rewrite <- (firstn_skipn i (firstn j text)) at 2.
  f_equal. rewrite firstn_firstn. f_equal. lia.
Qed.

Lemma slice_single (text : str) (i : nat) :
  i < length text -> exists c, slice text i (S i) = [c] /\ In c text.
Proof.
  intros Hi. unfold slice. replace (S i - i) with 1 by lia.
  destruct (skipn i text) as [|c r] eqn:Hs.
  - apply (f_equal (@length char)) in Hs. rewrite length_skipn in Hs.
    simpl in Hs. lia.
  - exists c. split; [reflexivity|].
    rewrite <- (firstn_skipn i text), Hs. apply in_or_app. right. left.
    reflexivity.
Qed.

Lemma iter_invariant {St} (cond : St -> bool) (body : St -> St)
    (P : St -> Prop) (s0 : St) :
  P s0 ->
  (forall s, cond s = true -> P s -> P (body s)) ->
  forall n,
    (forall k, k < n -> cond (Nat.iter k body s0) = true) ->
    P (Nat.iter n body s0).
Proof.
  intros H0 Hstep. induction n as [|n IH]; intros Hcond; simpl; [exact H0|].
  apply Hstep; [apply Hcond; lia|]. apply IH. intros k Hk. apply Hcond. lia.
Qed.

Section GreedyResult.

Variable self : CustomTokenizer.
Variable text : str.

(** What holds at the start and is kept by every iteration holds for the
    result of the greedy loop. *)
Lemma greedy_invariant (P : nat * list str -> Prop) :
  P (0, []) ->
  (forall i tokens,
      i < length text -> P (i, tokens) ->
      P (greedy_body self text (i, tokens))) ->
  exists i tokens,
    _greedy_tokenize self text = Some tokens
    /\ length text <= i
    /\ P (i, tokens).
Proof.
  intros H0 Hstep.
  destruct (@greedy_loop_terminates self text (length text) (Nat.le_refl _))
    as (n & i & tokens & _ & Hw & Hit & Hi & Hk).
  exists i, tokens. split; [exact Hw|]. split; [exact Hi|].
  rewrite <- Hit.
  apply (iter_invariant (greedy_cond text) (greedy_body self text) P (0, [])
           H0).
  - intros [j toks] Hc HP. apply Hstep; [|exact HP].
    unfold greedy_cond in Hc. apply Nat.ltb_lt in Hc. exact Hc.
  - intros k Hlt. unfold greedy_cond. apply Nat.ltb_lt. apply Hk. exact Hlt.
Qed.

(** X15 ([_greedy_tokenize], its tokens). Every token of the result is a
    vocabulary entry or the unknown token ["[UNK]"], and the result has at
    most as many tokens as the text has characters. *)
Theorem greedy_tokens :
  exists tokens,
    _greedy_tokenize self text = Some tokens
    /\ Forall (fun token => in_vocab self token = true
                            \/ token = lit "[UNK]") tokens
    /\ length tokens <= length text.
Proof.
  destruct (greedy_invariant
              (fun st =>
                 Forall (fun token => in_vocab self token = true
                                      \/ token = lit "[UNK]") (snd st)
                 /\ length (snd st) <= fst st <= length text))
    as (i & tokens & Hw & Hi & Hall & Hlen).
  - simpl. split; [constructor | lia].
  - intros i tokens Hi [Hall Hlen]. simpl in Hall, Hlen.
    pose proof (@greedy_body_advances self text i tokens Hi) as Hadv.
    destruct (@greedy_body_longest self text i tokens Hi)
      as [(j & Hj & Hv & _ & Hb & _)|[_ Hb]]; rewrite Hb in *; simpl in *.
    + split; [|rewrite length_app; simpl; lia].
      apply Forall_app. split; [exact Hall|]. constructor; [|constructor].
      left. exact Hv.
    + split; [|rewrite length_app; simpl; lia].
      apply Forall_app. split; [exact Hall|]. constructor; [|constructor].
      right. reflexivity.
  - exists tokens. simpl in Hall, Hlen. split; [exact Hw|].
    split; [exact Hall | lia].
Qed.

(** X16 ([_greedy_tokenize], no loss). When every single character of the
    text is a vocabulary entry, the result consists of vocabulary entries
    only and its tokens concatenated are the text. *)
Theorem greedy_lossless :
  (forall c, In c text -> in_vocab self [c] = true) ->
  exists tokens,
    _greedy_tokenize self text = Some tokens
    /\ Forall (fun token => in_vocab self token = true) tokens
    /\ concat tokens = text.
Proof.
  intros Hchars.
  destruct (greedy_invariant
              (fun st =>
                 fst st <= length text
                 /\ Forall (fun token => in_vocab self token = true) (snd st)
                 /\ concat (snd st) = firstn (fst st) text))
    as (i & tokens & Hw & Hi & Hle & Hall & Hcat).
  - simpl. split; [lia|]. split; [constructor | reflexivity].
  - intros i tokens Hi (Hle & Hall & Hcat). simpl in Hle, Hall, Hcat.
    destruct (@greedy_body_longest self text i tokens Hi)
      as [(j & Hj & Hv & _ & Hb & Hij)|[Hnone _]].
    + rewrite Hb, Hij. simpl. split; [lia|]. split.
      * apply Forall_app. split; [exact Hall|]. constructor; [exact Hv|].
        constructor.
      * rewrite concat_app, Hcat. simpl. rewrite app_nil_r.
        apply firstn_slice. lia.
    + exfalso. destruct (slice_single text i Hi) as (c & Hc & Hin).
      specialize (Hnone (S i)). rewrite Hc, (Hchars c Hin) in Hnone.
      assert (true = false) by (apply Hnone; lia). discriminate.
  - exists tokens. simpl in Hle, Hall, Hcat. split; [exact Hw|].
    split; [exact Hall|]. rewrite Hcat.
    apply firstn_all2. lia.
Qed.

End GreedyResult.

Lemma greedy_lossless_witness :
  exists self tokens,
    __init__ (greedy_vocab ++ [(lit "b", 7%Z)]) = Ok self
    /\ _greedy_tokenize self (lit "abab") = Some tokens
    /\ concat tokens = lit "abab".
Proof.
  eexists.
  match goal with
  | |- exists tokens, __init__ ?v = Ok ?s /\ _ =>
      assert (Hinit : __init__ v = Ok s) by reflexivity
  end.
  match type of Hinit with
  | _ = Ok ?self =>
      destruct (greedy_lossless self (lit "abab")) as (tokens & Hw & _ & Hcat)
  end.
  - intros c [<-|[<-|[<-|[<-|[]]]]]; reflexivity.
  - exists tokens. split; [exact Hinit|]. split; [exact Hw | exact Hcat].
Defined.

(** ** The text that [decode] builds *)

Section DecodeText.

Context {U : UnicodeTable}.

Lemma join_after_not_blank (tokens : list str) :
  forall prev,
    filter not_blank (join_after prev tokens)
    = filter not_blank (concat tokens)
    /\ length (join_after prev tokens)
       <= length (concat tokens) + length tokens.
Proof.
  induction tokens as [|token tokens IH]; intros prev; simpl; [auto|].
  destruct (IH token) as [IH1 IH2].
  rewrite !filter_app, !length_app, IH1.
  destruct (needs_space prev token); simpl; split; try reflexivity; lia.
Qed.

(** X17 ([decode], only spaces are added). The decoded text is the
    concatenation of the kept tokens with single spaces put in between:
    apart from spaces it has the same characters in the same order, and it
    is longer by less than the number of tokens. *)
Theorem decode_adds_only_spaces (self : CustomTokenizer) (token_ids : list Z) :
  exists text,
    decode self token_ids = Ok text
    /\ filter not_blank text
       = filter not_blank (concat (kept_tokens self token_ids))
    /\ length (concat (kept_tokens self token_ids)) <= length text
    /\ length text
       <= length (concat (kept_tokens self token_ids))
          + Nat.pred (length (kept_tokens self token_ids)).
Proof.
  exists (join_spaced (kept_tokens self token_ids)).
  split; [apply decode_join|].
  destruct (kept_tokens self token_ids) as [|token tokens]; simpl.
  - repeat split; lia.
  - destruct (join_after_not_blank tokens token) as [H1 H2].
    rewrite !filter_app, !length_app, H1. split; [reflexivity|].
    split; [|lia].
    assert (Hlen : length (filter not_blank (join_after token tokens))
                   <= length (join_after token tokens))
      by apply filter_length_le.
    rewrite H1 in Hlen.
    assert (Hge : forall tokens prev,
               length (concat tokens) <= length (join_after prev tokens)).
    { clear. induction tokens as [|t tokens IH]; intros prev; simpl; [lia|].
      rewrite !length_app. specialize (IH t). lia. }
    specialize (Hge tokens token). lia.
Qed.

End DecodeText.

(** ** Shared ids *)

(** X18 ([__init__], the inverse table). When several tokens share an id,
    the inverse table keeps the one that comes last in [token_to_id]: that
    is the token which [decode] shows for the id. *)
Theorem id_to_token_last_wins (vocab_data : list (str * Z))
    (self : CustomTokenizer) (d1 d2 : dict str Z) (token : str) (i : Z) :
  __init__ vocab_data = Ok self ->
  token_to_id self = d1 ++ (token, i) :: d2 ->
  ~ In i (map snd d2) ->
  lookup_token self i = token.
Proof.
  intros Hinit Hd Hlast.
  destruct (@__init___Ok vocab_data self Hinit) as (_ & Hinv & _).
  unfold lookup_token. rewrite Hinv, dict_get_of_items, Hd.
  rewrite map_app, rev_app_distr. simpl. rewrite <- app_assoc.
  rewrite dict_get_app.
  assert (Hnone : dict_get (rev (map (fun kv : str * Z => (snd kv, fst kv)) d2))
                           i = None).
  { apply dict_get_None. rewrite <- map_rev, map_map. simpl.
    rewrite map_rev. intros Hin. apply Hlast. apply in_rev. exact Hin. }
  rewrite Hnone. simpl. rewrite eqb_refl. reflexivity.
Qed.

Lemma id_to_token_last_wins_witness :
  exists self,
    __init__ shared_id_vocab = Ok self
    /\ lookup_token self 6%Z = lit "O".
Proof.
  eexists. split; [reflexivity|].
  match goal with
  | |- lookup_token ?self _ = _ =>
      apply (id_to_token_last_wins shared_id_vocab self
               (special_items ++ [(lit ">>", 5%Z); (lit "C", 6%Z)])
               [(lit "B", 8%Z); (lit "r", 9%Z); (lit ">", 10%Z);
                (lit "Br", 11%Z); (lit "2.12.13", 12%Z)]
               (lit "O") 6%Z eq_refl eq_refl)
  end.
  simpl. intros [H|[H|[H|[H|[H|[]]]]]]; discriminate H.
Defined.
